(** * In-memory artifact service: versioned keys over an ordered map

    Shallow embedding of [artifactservice/service.go] (the in-memory
    implementation of [Service]) together with the two libraries it
    is written against: the order-preserving key encoding
    ([rsc.io/ordered]) and the ordered map ([rsc.io/omap]). *)

From Stdlib Require Import ZArith String Ascii List Lia.
From stdpp Require Import gmap strings list sorting.

Local Open Scope Z_scope.

(** ** Byte strings and their lexicographic order

    A Go [string] is a sequence of bytes; [<] on Go strings is the
    bytewise lexicographic order, which is [String.compare]. *)

Module StrOrder.

Definition slt (s1 s2 : string) : Prop := String.compare s1 s2 = Lt.
Definition sle (s1 s2 : string) : Prop := String.compare s1 s2 <> Gt.

End StrOrder.

(** ** The ordered key codec ([rsc.io/ordered])

    [artifactKey.Encode] and [artifactKey.Decode] delegate to
    [ordered.Encode] and [ordered.Decode], a dependency whose source
    is not part of the repository.  Its field encoders are modelled
    below from the specification's description of the codec. *)

Module Ordered.
Definition NUL : ascii := "000"%char.
Definition xFF : ascii := "255"%char.

(** Modelled from the spec: [ordered.Encode] on a string field, which
    is missing from the sources.  The spec asks for "a self-delimiting
    scheme for each string field (so that no field's content can
    produce ambiguous boundaries)" that is order-preserving: every
    byte is copied, a 0x00 byte is escaped as 0x00 0xFF, and the field
    is closed by 0x00 0x00. *)
Fixpoint encString (s : string) : string :=
  match s with
  | EmptyString => String NUL (String NUL EmptyString)
  | String c s' =>
      if Ascii.eqb c NUL then String NUL (String xFF (encString s'))
      else String c (encString s')
  end.

(** Modelled from the spec: [ordered.Decode] into a [*string], the
    "exact inverse" of the string encoder; it returns the field and
    the bytes that follow it, and fails on a dangling escape or a
    missing terminator. *)
Fixpoint decString (k : string) : option (string * string) :=
  match k with
  | EmptyString => None
  | String c k' =>
      if Ascii.eqb c NUL then
        match k' with
        | EmptyString => None
        | String d k'' =>
            if Ascii.eqb d NUL then Some (EmptyString, k'')
            else if Ascii.eqb d xFF then
              match decString k'' with
              | Some (s, r) => Some (String NUL s, r)
              | None => None
              end
            else None
        end
      else
        match decString k' with
        | Some (s, r) => Some (String c s, r)
        | None => None
        end
  end.

(** [int64]: two's complement, 64 bits. *)
Definition minInt64 : Z := -9223372036854775808.
Definition maxInt64 : Z := 9223372036854775807.
Definition two64 : Z := 18446744073709551616.

Definition int64 (v : Z) : Prop := minInt64 <= v <= maxInt64.

(** Go's [+] on [int64] wraps around. *)
Definition wrap64 (z : Z) : Z := (z - minInt64) mod two64 + minInt64.

(** Modelled from the spec: the "fixed-width" integer layout of the
    codec, missing from the sources: [w] bytes of [n], most
    significant first (for [w = 8], [binary.BigEndian.PutUint64]). *)
Fixpoint beBytes (w : nat) (n : Z) : string :=
  match w with
  | O => EmptyString
  | S w' =>
      String (ascii_of_N (Z.to_N ((n / 256 ^ Z.of_nat w') mod 256)))
             (beBytes w' n)
  end.

(** Modelled from the spec: the inverse of the layout above; reads
    [w] big-endian bytes on top of [acc] and fails when fewer than
    [w] bytes are left. *)
Fixpoint beValue (w : nat) (k : string) (acc : Z) : option (Z * string) :=
  match w with
  | O => Some (acc, k)
  | S w' =>
      match k with
      | EmptyString => None
      | String c k' => beValue w' k' (acc * 256 + Z.of_N (N_of_ascii c))
      end
  end.

(** Modelled from the spec: [ordered.Encode] on [ordered.Rev(v)] for
    an [int64], missing from the sources: "a fixed-width
    order-preserving encoding for the integer version with its sort
    order inverted".  The order-preserving form of [v] is the
    unsigned 64-bit number [v - minInt64] (sign bit flipped); the
    reversed form inverts all 64 bits. *)
Definition encRev (v : Z) : string :=
  beBytes 8 (two64 - 1 - (v - minInt64) mod two64).

(** Modelled from the spec: [ordered.Decode] into an
    [ordered.Reverse[int64]] followed by [Value()]; a "truncated
    integer" is a decode error. *)
Definition decRev (k : string) : option (Z * string) :=
  match beValue 8 k 0 with
  | Some (n, r) => Some (two64 - 1 - n + minInt64, r)
  | None => None
  end.

End Ordered.

(** ** The ordered map ([rsc.io/omap])

    [omap.Map[K, V]] is a map that iterates in key order; its source
    is not part of the repository.  It is modelled as a finite map
    whose range scan lists the bindings with [lo <= key <= hi] by
    increasing key, the interface the spec gives it: [scan(lo,hi)],
    [get], [set], [deleteRange]. *)

Module OMap.
Import StrOrder.

Definition sle_dec (s1 s2 : string) : Decision (sle s1 s2).
Proof.
  unfold sle. destruct (String.compare s1 s2);
    [left | left | right]; congruence.
Defined.
#[export] Existing Instance sle_dec.

Section omap.
Context {V : Type}.

Definition in_range (lo hi k : string) : Prop := sle lo k /\ sle k hi.

Definition key_le (x y : string * V) : Prop := sle x.1 y.1.

#[export] Instance key_le_dec : RelDecision key_le :=
    fun x y => sle_dec x.1 y.1.

(** Modelled from the spec: [omap.Map.Get], the point lookup
    ("get-exact"); [None] is [ok = false]. *)
Definition Get (m : gmap string V) (key : string) : option V := m !! key.

(** Modelled from the spec: [omap.Map.Set], insert or overwrite. *)
Definition Set_ (m : gmap string V) (key : string) (val : V)
    : gmap string V := <[key := val]> m.

(** Modelled from the spec: [omap.Map.Delete] ("delete-exact");
    nothing happens when the key is absent. *)
Definition Delete (m : gmap string V) (key : string) : gmap string V :=
    base.delete key m.

(** Modelled from the spec: [omap.Map.DeleteRange], the "range
    delete" of every key with [lo <= key <= hi]. *)
Definition DeleteRange (m : gmap string V) (lo hi : string)
    : gmap string V :=
    filter (fun kv : string * V => ~ in_range lo hi kv.1) m.

(** Modelled from the spec: [omap.Map.Scan]; service.go documents
    it as "all key-value pairs in the range begin <= key <= end", and
    the spec as a forward scan in key order. *)
Definition Scan (m : gmap string V) (lo hi : string)
    : list (string * V) :=
    merge_sort key_le
      (map_to_list (filter (fun kv : string * V => in_range lo hi kv.1) m)).
End omap.

End OMap.

(** ** Requests, responses and errors ([artifactservice/service.go]) *)

Module SaveRequest.
Record t (Part : Type) := mk {
    AppName : string; UserID : string; SessionID : string;
    FileName : string;
    Part_ : option Part;      (* [*genai.Part], [None] is [nil] *)
    Version : Z }.
Arguments mk {Part}.
Arguments AppName {Part}.
Arguments UserID {Part}.
Arguments SessionID {Part}.
Arguments FileName {Part}.
Arguments Part_ {Part}.
Arguments Version {Part}.
End SaveRequest.

Module SaveResponse.
Record t := mk { Version : Z }.
End SaveResponse.

Module LoadRequest.
Record t := mk {
    AppName : string; UserID : string; SessionID : string;
    FileName : string; Version : Z }.
End LoadRequest.

Module LoadResponse.
Record t (Part : Type) := mk { Part_ : option Part }.
Arguments mk {Part}.
Arguments Part_ {Part}.
End LoadResponse.

Module DeleteRequest.
Record t := mk {
    AppName : string; UserID : string; SessionID : string;
    FileName : string; Version : Z }.
End DeleteRequest.

Module ListRequest.
Record t := mk { AppName : string; UserID : string; SessionID : string }.
End ListRequest.

Module ListResponse.
Record t := mk { FileNames : list string }.
End ListResponse.

Module VersionsRequest.
Record t := mk {
    AppName : string; UserID : string; SessionID : string;
    FileName : string }.
End VersionsRequest.

Module VersionsResponse.
Record t := mk { Versions : list Z }.
End VersionsResponse.

(** The two errors the service builds with [fmt.Errorf]. *)
Inductive error : Type :=
| ErrInvalidRequest   (* "invalid request: missing required fields" *)
| ErrNotExist.        (* "artifact not found: %w", fs.ErrNotExist *)

Inductive result (A : Type) : Type :=
| Ok (a : A)
| Err (e : error).
Arguments Ok {A}.
Arguments Err {A}.

(** ** Keys *)

Record artifactKey := mkKey {
  AppName : string; UserID : string; SessionID : string;
  FileName : string; Version : Z }.

Definition Encode (ak : artifactKey) : string :=
  (Ordered.encString (AppName ak) ++ Ordered.encString (UserID ak) ++
   Ordered.encString (SessionID ak) ++ Ordered.encString (FileName ak) ++
   Ordered.encRev (Version ak))%string.

(** [Decode] returns [None] where the Go method returns an error;
    bytes left over after the five fields are an error. *)
Definition Decode (key : string) : option artifactKey :=
  match Ordered.decString key with
  | None => None
  | Some (a, k1) =>
  match Ordered.decString k1 with
  | None => None
  | Some (u, k2) =>
  match Ordered.decString k2 with
  | None => None
  | Some (s, k3) =>
  match Ordered.decString k3 with
  | None => None
  | Some (f, k4) =>
  match Ordered.decRev k4 with
  | Some (v, EmptyString) => Some (mkKey a u s f v)
  | _ => None
  end end end end end.

(** ** The in-memory service

    The state of an [inMemoryService] is its [artifacts] map (the
    mutex [mu] only serialises callers).  Every method takes the
    state and returns its Go results together with the state it
    leaves behind. *)

Module inMemoryService.

Section service.
Context {Part : Type}.

Abbreviation store := (gmap string (option Part)).

(** [Mem()]: the service with an empty map. *)
Definition Mem : gmap string (option Part) := ∅.

(** [artifact == nil] *)
Definition isNil (artifact : option Part) : bool :=
  match artifact with None => true | Some _ => false end.

(** The pairs the iterator yields, in order: keys that fail to
    decode are skipped ([continue]). *)
Definition scan (s : store) (lo hi : string)
  : list (artifactKey * option Part) :=
  omap (fun kv : string * option Part =>
          match Decode kv.1 with
          | None => None
          | Some key => Some (key, kv.2)
          end)
       (OMap.Scan s lo hi).

(** The loop body returns at the first pair. *)
Definition find (s : store) (appName userID sessionID fileName : string)
  : Z * option Part * bool :=
  let lo := Encode (mkKey appName userID sessionID fileName Ordered.maxInt64) in
  let hi := Encode (mkKey appName userID sessionID fileName 0) in
  match scan s lo hi with
  | (key, val) :: _ => (Version key, val, true)
  | [] => (0, None, false)
  end.

Definition get (s : store) (appName userID sessionID fileName : string)
  (version : Z) : option (option Part) :=
  let key := Encode (mkKey appName userID sessionID fileName version) in
  OMap.Get s key.

Definition set (s : store) (appName userID sessionID fileName : string)
  (version : Z) (artifact : option Part) : store :=
  let key := Encode (mkKey appName userID sessionID fileName version) in
  OMap.Set_ s key artifact.

Definition delete (s : store) (appName userID sessionID fileName : string)
  (version : Z) : store :=
  let key := Encode (mkKey appName userID sessionID fileName version) in
  OMap.Delete s key.

(** The body never reads [req.Version]. *)
Definition Save (s : store) (req : SaveRequest.t Part)
  : result SaveResponse.t * store :=
  let appName := SaveRequest.AppName req in
  let userID := SaveRequest.UserID req in
  let sessionID := SaveRequest.SessionID req in
  let fileName := SaveRequest.FileName req in
  let artifact := SaveRequest.Part_ req in
  if String.eqb appName EmptyString || String.eqb userID EmptyString ||
     String.eqb sessionID EmptyString || String.eqb fileName EmptyString ||
     isNil artifact
  then (Err ErrInvalidRequest, s)
  else
    let nextVersion :=
      match find s appName userID sessionID fileName with
      | (internalVer, _, true) => Ordered.wrap64 (internalVer + 1)
      | (_, _, false) => 1
      end in
    (Ok (SaveResponse.mk nextVersion),
     set s appName userID sessionID fileName nextVersion artifact).

(** The Go method returns only an [error]; [None] is [nil]. *)
Definition Delete (s : store) (req : DeleteRequest.t)
  : option error * store :=
  let appName := DeleteRequest.AppName req in
  let userID := DeleteRequest.UserID req in
  let sessionID := DeleteRequest.SessionID req in
  let fileName := DeleteRequest.FileName req in
  let version := DeleteRequest.Version req in
  if String.eqb appName EmptyString || String.eqb userID EmptyString ||
     String.eqb sessionID EmptyString || String.eqb fileName EmptyString
  then (Some ErrInvalidRequest, s)
  else if negb (version =? 0)
  then (None, delete s appName userID sessionID fileName version)
  else
    let lo := Encode (mkKey appName userID sessionID fileName Ordered.maxInt64) in
    let hi := Encode (mkKey appName userID sessionID fileName 0) in
    (None, OMap.DeleteRange s lo hi).

Definition Load (s : store) (req : LoadRequest.t)
  : result (LoadResponse.t Part) * store :=
  let appName := LoadRequest.AppName req in
  let userID := LoadRequest.UserID req in
  let sessionID := LoadRequest.SessionID req in
  let fileName := LoadRequest.FileName req in
  if String.eqb appName EmptyString || String.eqb userID EmptyString ||
     String.eqb sessionID EmptyString || String.eqb fileName EmptyString
  then (Err ErrInvalidRequest, s)
  else
    let version := LoadRequest.Version req in
    if 0 <? version
    then
      match get s appName userID sessionID fileName version with
      | None => (Err ErrNotExist, s)
      | Some artifact => (Ok (LoadResponse.mk artifact), s)
      end
    else
      match find s appName userID sessionID fileName with
      | (_, _, false) => (Err ErrNotExist, s)
      | (_, artifact, true) => (Ok (LoadResponse.mk artifact), s)
      end.

(** [files] is a [map[string]bool] that only ever holds [true]: a
    set of names.  Go leaves the order of [maps.Keys] unspecified;
    the model returns the elements of the set. *)
Definition List (s : store) (req : ListRequest.t)
  : result ListResponse.t * store :=
  let appName := ListRequest.AppName req in
  let userID := ListRequest.UserID req in
  let sessionID := ListRequest.SessionID req in
  if String.eqb appName EmptyString || String.eqb userID EmptyString ||
     String.eqb sessionID EmptyString
  then (Err ErrInvalidRequest, s)
  else
    let lo := Encode (mkKey appName userID sessionID EmptyString 0) in
    let hi := Encode (mkKey appName userID
                        (sessionID ++ String Ordered.NUL EmptyString) EmptyString 0) in
    let files :=
      foldl (fun (files : gset string) (kv : artifactKey * option Part) =>
               if negb (String.eqb (SessionID kv.1) sessionID)
               then files
               else {[ FileName kv.1 ]} ∪ files)
            ∅ (scan s lo hi) in
    (Ok (ListResponse.mk (elements files)), s).

Definition Versions (s : store) (req : VersionsRequest.t)
  : result VersionsResponse.t * store :=
  let appName := VersionsRequest.AppName req in
  let userID := VersionsRequest.UserID req in
  let sessionID := VersionsRequest.SessionID req in
  let fileName := VersionsRequest.FileName req in
  if String.eqb appName EmptyString || String.eqb userID EmptyString ||
     String.eqb sessionID EmptyString || String.eqb fileName EmptyString
  then (Err ErrInvalidRequest, s)
  else
    let lo := Encode (mkKey appName userID sessionID fileName Ordered.maxInt64) in
    let hi := Encode (mkKey appName userID sessionID fileName 0) in
    let versions :=
      map (fun kv : artifactKey * option Part => Version kv.1)
          (scan s lo hi) in
    if (length versions =? 0)%nat
    then (Err ErrNotExist, s)
    else (Ok (VersionsResponse.mk versions), s).

End service.

End inMemoryService.

(** ** Vocabulary of the statements *)

(** The order on keys that the encoding realises: the four names
    lexicographically, then the version in reverse. *)
Definition key_compare (k1 k2 : artifactKey) : comparison :=
  match String.compare (AppName k1) (AppName k2) with
  | Eq =>
    match String.compare (UserID k1) (UserID k2) with
    | Eq =>
      match String.compare (SessionID k1) (SessionID k2) with
      | Eq =>
        match String.compare (FileName k1) (FileName k2) with
        | Eq => Version k2 ?= Version k1
        | c => c
        end
      | c => c
      end
    | c => c
    end
  | c => c
  end.

(** A valid key: four non-empty names and a version of at least 1. *)
Definition valid_key (ak : artifactKey) : Prop :=
  AppName ak <> EmptyString /\ UserID ak <> EmptyString /\
  SessionID ak <> EmptyString /\ FileName ak <> EmptyString /\
  1 <= Version ak <= Ordered.maxInt64.

(** The record [val] is stored under [key]. *)
Definition stored {Part : Type} (s : gmap string (option Part))
  (key : artifactKey) (val : option Part) : Prop :=
  Ordered.int64 (Version key) /\ s !! Encode key = Some val.

(** The invariant of the data model: every stored record sits under
    a valid key. *)
Definition store_inv {Part : Type} (s : gmap string (option Part)) : Prop :=
  forall key val, stored s key val -> valid_key key.

(** The scan of one file, between the bounds for versions
    [maxInt64] and [0], as [find] and [Versions] run it. *)
Definition fileScan {Part : Type} (s : gmap string (option Part))
  (a u se f : string) : list (artifactKey * option Part) :=
  inMemoryService.scan s (Encode (mkKey a u se f Ordered.maxInt64))
                         (Encode (mkKey a u se f 0)).

(** [latest s a u se f n]: [n] is the highest version of the file in
    [s], with [n = 0] when the file has none. *)
Definition latest {Part : Type} (s : gmap string (option Part))
  (a u se f : string) (n : Z) : Prop :=
  (n = 0 /\ forall v val, 0 <= v -> ~ stored s (mkKey a u se f v) val) \/
  (0 <= n /\ (exists val, stored s (mkKey a u se f n) val) /\
   forall v val, n < v -> ~ stored s (mkKey a u se f v) val).

(** Saving a list of payloads in turn to one file, without a version,
    collecting what each [Save] returns. *)
Fixpoint saveAll {Part : Type} (s : gmap string (option Part))
  (appName userID sessionID fileName : string) (parts : list Part)
  : list (result SaveResponse.t) * gmap string (option Part) :=
  match parts with
  | [] => ([], s)
  | p :: parts' =>
      let '(r, s') :=
        inMemoryService.Save s
          (SaveRequest.mk appName userID sessionID fileName (Some p) 0) in
      let '(rs, s'') :=
        saveAll s' appName userID sessionID fileName parts' in
      (r :: rs, s'')
  end.

(** The store that [TestInMemoryArtifactService] builds: three saves
    of "file1" and one of "file2" in the same session. *)
Definition testStore : gmap string (option string) :=
  (saveAll
     (saveAll ∅ "testapp" "testuser" "testsession" "file1"
              ["file v1"; "file v2"; "file v3"]).2
     "testapp" "testuser" "testsession" "file2" ["file v3"]).2.

Definition testKey (f : string) (v : Z) : artifactKey :=
  mkKey "testapp" "testuser" "testsession" f v.

(** The versions a [Versions] call reports, [[]] when it fails. *)
Definition versionList (r : result VersionsResponse.t) : list Z :=
  match r with
  | Ok resp => VersionsResponse.Versions resp
  | Err _ => []
  end.

(** The names a [List] call reports, [[]] when it fails. *)
Definition fileNames (r : result ListResponse.t) : list string :=
  match r with
  | Ok resp => ListResponse.FileNames resp
  | Err _ => []
  end.

(** One call on the service, as a client issues it. *)
Inductive call (Part : Type) : Type :=
| CallSave (req : SaveRequest.t Part)
| CallLoad (req : LoadRequest.t)
| CallDelete (req : DeleteRequest.t)
| CallList (req : ListRequest.t)
| CallVersions (req : VersionsRequest.t).

Arguments CallSave {Part} req.
Arguments CallLoad {Part} req.
Arguments CallDelete {Part} req.
Arguments CallList {Part} req.
Arguments CallVersions {Part} req.

(** The store a call leaves behind. *)
Definition step {Part : Type} (s : gmap string (option Part))
  (c : call Part) : gmap string (option Part) :=
  match c with
  | CallSave req => (inMemoryService.Save s req).2
  | CallLoad req => (inMemoryService.Load s req).2
  | CallDelete req => (inMemoryService.Delete s req).2
  | CallList req => (inMemoryService.List s req).2
  | CallVersions req => (inMemoryService.Versions s req).2
  end.

(** The store after a sequence of calls on a fresh [Mem()]. *)
Definition run {Part : Type} (calls : list (call Part))
  : gmap string (option Part) :=
  foldl step inMemoryService.Mem calls.

(** Every binding of the map is a non-nil payload under the encoding
    of a valid key with a version of at most [n]. *)
Definition bounded_store {Part : Type} (n : Z)
  (s : gmap string (option Part)) : Prop :=
  forall k val,
    s !! k = Some val ->
    exists key p,
      k = Encode key /\ val = Some p /\ valid_key key /\ Version key <= n.

(** * Properties

    ** The order on byte strings *)

Import StrOrder.

Lemma ascii_compare_refl (c : ascii) : Ascii.compare c c = Eq.
Proof. unfold Ascii.compare. apply N.compare_refl. Qed.

Lemma ascii_compare_eq (c d : ascii) : Ascii.compare c d = Eq <-> c = d.
Proof.
  split; [apply Ascii.compare_eq_iff|].
  intros ->. apply ascii_compare_refl.
Qed.

Lemma compare_refl (s : string) : String.compare s s = Eq.
Proof.
  induction s as [|c s IH]; simpl; [reflexivity|].
  now rewrite ascii_compare_refl.
Qed.

Lemma compare_eq (s1 s2 : string) : String.compare s1 s2 = Eq <-> s1 = s2.
Proof.
  split; [apply String.compare_eq_iff|].
  intros ->. apply compare_refl.
Qed.

Lemma compare_gt_lt (s1 s2 : string) :
  String.compare s1 s2 = Gt <-> String.compare s2 s1 = Lt.
Proof.
  rewrite (String.compare_antisym s1 s2).
  destruct (String.compare s2 s1); simpl; split; congruence.
Qed.

Lemma ascii_compare_trans (c1 c2 c3 : ascii) :
  Ascii.compare c1 c2 = Lt -> Ascii.compare c2 c3 = Lt ->
  Ascii.compare c1 c3 = Lt.
Proof.
  unfold Ascii.compare. rewrite !N.compare_lt_iff. lia.
Qed.

Lemma slt_trans (s1 s2 s3 : string) : slt s1 s2 -> slt s2 s3 -> slt s1 s3.
Proof.
  unfold slt. revert s2 s3.
  induction s1 as [|c1 s1 IH]; intros [|c2 s2] [|c3 s3]; simpl;
    try congruence.
  destruct (Ascii.compare c1 c2) eqn:E12; try discriminate;
    destruct (Ascii.compare c2 c3) eqn:E23; try discriminate; intros H1 H2.
  - apply ascii_compare_eq in E12, E23. subst.
    rewrite ascii_compare_refl. eauto.
  - apply ascii_compare_eq in E12. subst. now rewrite E23.
  - apply ascii_compare_eq in E23. subst. now rewrite E12.
  - now rewrite (ascii_compare_trans _ _ _ E12 E23).
Qed.

Lemma sle_cases (s1 s2 : string) : sle s1 s2 <-> slt s1 s2 \/ s1 = s2.
Proof.
  unfold sle, slt. rewrite <- compare_eq.
  destruct (String.compare s1 s2); split; intros; try tauto; try congruence;
    destruct H; congruence.
Qed.

Lemma sle_refl (s : string) : sle s s.
Proof. apply sle_cases. now right. Qed.

Lemma sle_trans (s1 s2 s3 : string) : sle s1 s2 -> sle s2 s3 -> sle s1 s3.
Proof.
  rewrite !sle_cases. intros [H1| ->] [H2| ->]; eauto using slt_trans.
Qed.

Lemma sle_total (s1 s2 : string) : sle s1 s2 \/ sle s2 s1.
Proof.
  unfold sle. rewrite (String.compare_antisym s2 s1).
  destruct (String.compare s1 s2); simpl; intuition congruence.
Qed.

Lemma sle_antisym (s1 s2 : string) : sle s1 s2 -> sle s2 s1 -> s1 = s2.
Proof.
  rewrite !sle_cases. intros [H1| ->] [H2| E]; try congruence.
  pose proof (slt_trans _ _ _ H1 H2) as H. unfold slt in H.
  rewrite compare_refl in H. discriminate.
Qed.

Lemma slt_irrefl (s : string) : ~ slt s s.
Proof. unfold slt. rewrite compare_refl. discriminate. Qed.

Lemma slt_not_sle (s1 s2 : string) : slt s1 s2 -> ~ sle s2 s1.
Proof.
  intros H1 H2. apply sle_cases in H2 as [H2| ->].
  - exact (slt_irrefl _ (slt_trans _ _ _ H1 H2)).
  - exact (slt_irrefl _ H1).
Qed.

(** Comparing two strings with a common prefix compares the tails. *)
Lemma compare_app_same (p r1 r2 : string) :
  String.compare (p ++ r1) (p ++ r2) = String.compare r1 r2.
Proof.
  induction p as [|c p IH]; simpl; [reflexivity|].
  now rewrite ascii_compare_refl.
Qed.

#[local] Instance sle_transitive : Transitive sle.
Proof. intros ? ? ?. apply sle_trans. Qed.

#[local] Instance sle_total_inst : Total sle.
Proof. intros ? ?. apply sle_total. Qed.

(** ** String fields *)

Import Ordered.

Lemma eqb_NUL (c : ascii) : Ascii.eqb c NUL = false -> Ascii.compare NUL c = Lt.
Proof.
  intros H. apply Ascii.eqb_neq in H.
  unfold Ascii.compare. apply N.compare_lt_iff.
  assert (N_of_ascii c <> 0%N); [|simpl; lia].
  intros E. apply H. rewrite <- (ascii_N_embedding c), E. reflexivity.
Qed.

Lemma decString_encString (s r : string) :
  decString (encString s ++ r) = Some (s, r).
Proof.
  induction s as [|c s IH]; simpl; [reflexivity|].
  destruct (Ascii.eqb c NUL) eqn:E; simpl.
  - apply Ascii.eqb_eq in E. subst c. now rewrite IH.
  - now rewrite E, IH.
Qed.

Lemma decString_inv_aux (n : nat) :
  forall k s r, (String.length k <= n)%nat ->
    decString k = Some (s, r) -> k = (encString s ++ r)%string.
Proof.
  induction n as [|n IH]; intros [|c k] s r Hlen; simpl in *;
    try discriminate; try lia.
  destruct (Ascii.eqb c NUL) eqn:E.
  - apply Ascii.eqb_eq in E. subst c.
    destruct k as [|d k]; [discriminate|].
    destruct (Ascii.eqb d NUL) eqn:Ed.
    + apply Ascii.eqb_eq in Ed. subst d. intros [= <- <-]. reflexivity.
    + destruct (Ascii.eqb d xFF) eqn:Ef; [|discriminate].
      apply Ascii.eqb_eq in Ef. subst d.
      destruct (decString k) as [[s' r']|] eqn:Ek; [|discriminate].
      intros [= <- <-]. simpl in Hlen.
      rewrite (IH k s' r') by (auto; lia). reflexivity.
  - destruct (decString k) as [[s' r']|] eqn:Ek; [|discriminate].
    intros [= <- <-]. simpl. rewrite E.
    rewrite (IH k s' r') by (auto; lia). reflexivity.
Qed.

(** The string decoder accepts nothing but encoder output. *)
Lemma decString_inv (k s r : string) :
  decString k = Some (s, r) -> k = (encString s ++ r)%string.
Proof. apply (decString_inv_aux (String.length k)). lia. Qed.

(** The encoding of a string field followed by anything compares
    like the field, then like what follows. *)
Lemma compare_encString (s1 s2 r1 r2 : string) :
  String.compare (encString s1 ++ r1) (encString s2 ++ r2) =
  match String.compare s1 s2 with
  | Eq => String.compare r1 r2
  | c => c
  end.
Proof.
  revert s2. induction s1 as [|c1 s1 IH]; intros [|c2 s2]; simpl.
  - reflexivity.
  - destruct (Ascii.eqb c2 NUL) eqn:E; simpl; [reflexivity|].
    now rewrite (eqb_NUL _ E).
  - destruct (Ascii.eqb c1 NUL) eqn:E; simpl; [reflexivity|].
    rewrite Ascii.compare_antisym, (eqb_NUL _ E). reflexivity.
  - destruct (Ascii.eqb c1 NUL) eqn:E1; destruct (Ascii.eqb c2 NUL) eqn:E2; simpl.
    + apply Ascii.eqb_eq in E1, E2. subst. simpl. apply IH.
    + apply Ascii.eqb_eq in E1. subst. now rewrite (eqb_NUL _ E2).
    + apply Ascii.eqb_eq in E2. subst.
      rewrite Ascii.compare_antisym, (eqb_NUL _ E1). reflexivity.
    + destruct (Ascii.compare c1 c2); auto.
Qed.

(** ** Fixed-width integers *)

Lemma append_empty_r (s : string) : (s ++ EmptyString)%string = s.
Proof.
  induction s as [|c s IH]; [reflexivity|].
  change (String c s ++ EmptyString)%string with (String c (s ++ EmptyString)).
  now rewrite IH.
Qed.

Lemma pow256_pos (w : nat) : 0 < 256 ^ Z.of_nat w.
Proof. apply Z.pow_pos_nonneg; lia. Qed.

Lemma pow256_succ (w : nat) : 256 ^ Z.of_nat (S w) = 256 ^ Z.of_nat w * 256.
Proof. rewrite Nat2Z.inj_succ, Z.pow_succ_r by lia. lia. Qed.

Lemma byte_compare (x y : Z) :
  0 <= x < 256 -> 0 <= y < 256 ->
  Ascii.compare (ascii_of_N (Z.to_N x)) (ascii_of_N (Z.to_N y)) = (x ?= y).
Proof.
  intros Hx Hy. unfold Ascii.compare.
  rewrite !N_ascii_embedding by lia.
  rewrite <- Z2N.inj_compare by lia. reflexivity.
Qed.

Lemma byte_value (x : Z) :
  0 <= x < 256 -> Z.of_N (N_of_ascii (ascii_of_N (Z.to_N x))) = x.
Proof. intros Hx. rewrite N_ascii_embedding by lia. lia. Qed.

Lemma ascii_value_bound (c : ascii) : 0 <= Z.of_N (N_of_ascii c) < 256.
Proof. pose proof (N_ascii_bounded c). lia. Qed.

Lemma mod_split (n : Z) (w : nat) :
  n mod 256 ^ Z.of_nat (S w) =
  (n / 256 ^ Z.of_nat w) mod 256 * 256 ^ Z.of_nat w + n mod 256 ^ Z.of_nat w.
Proof.
  pose proof (pow256_pos w). rewrite pow256_succ.
  rewrite Z.rem_mul_r by lia. lia.
Qed.

Lemma beBytes_S (w : nat) (n : Z) (r : string) :
  (beBytes (S w) n ++ r)%string =
  String (ascii_of_N (Z.to_N ((n / 256 ^ Z.of_nat w) mod 256)))
         (beBytes w n ++ r).
Proof. reflexivity. Qed.

Lemma compare_String (c1 c2 : ascii) (s1 s2 : string) :
  String.compare (String c1 s1) (String c2 s2) =
  match Ascii.compare c1 c2 with
  | Eq => String.compare s1 s2
  | c => c
  end.
Proof. simpl. now destruct (Ascii.compare c1 c2). Qed.

Lemma compare_beBytes (w : nat) (n1 n2 : Z) (r1 r2 : string) :
  String.compare (beBytes w n1 ++ r1) (beBytes w n2 ++ r2) =
  match n1 mod 256 ^ Z.of_nat w ?= n2 mod 256 ^ Z.of_nat w with
  | Eq => String.compare r1 r2
  | c => c
  end.
Proof.
  induction w as [|w IH].
  - simpl. rewrite !Z.mod_1_r. reflexivity.
  - rewrite !beBytes_S, compare_String.
    set (P := 256 ^ Z.of_nat w) in *.
    assert (0 < P) by apply pow256_pos.
    rewrite (mod_split n1), (mod_split n2). fold P.
    pose proof (Z.mod_pos_bound (n1 / P) 256 ltac:(lia)) as Hb1.
    pose proof (Z.mod_pos_bound (n2 / P) 256 ltac:(lia)) as Hb2.
    pose proof (Z.mod_pos_bound n1 P ltac:(lia)) as Hm1.
    pose proof (Z.mod_pos_bound n2 P ltac:(lia)) as Hm2.
    rewrite byte_compare by lia.
    set (b1 := (n1 / P) mod 256) in *. set (b2 := (n2 / P) mod 256) in *.
    set (m1 := n1 mod P) in *. set (m2 := n2 mod P) in *.
    clearbody b1 b2 m1 m2 P.
    destruct (b1 ?= b2) eqn:E.
    + apply Z.compare_eq_iff in E. rewrite E, IH.
      rewrite Z.add_compare_mono_l. reflexivity.
    + pose proof (proj1 (Z.compare_lt_iff _ _) E) as E'.
      replace (_ ?= _) with Lt; [reflexivity|].
      symmetry. apply Z.compare_lt_iff.
      assert ((b1 + 1) * P <= b2 * P)
        by (apply Z.mul_le_mono_nonneg_r; lia).
      lia.
    + pose proof (proj1 (Z.compare_gt_iff _ _) E) as E'.
      replace (_ ?= _) with Gt; [reflexivity|].
      symmetry. apply Z.compare_gt_iff.
      assert ((b2 + 1) * P <= b1 * P)
        by (apply Z.mul_le_mono_nonneg_r; lia).
      lia.
Qed.

Lemma beBytes_add (w : nat) :
  forall q n, beBytes w (q * 256 ^ Z.of_nat w + n) = beBytes w n.
Proof.
  induction w as [|w IH]; intros q n; [reflexivity|].
  rewrite <- (append_empty_r (beBytes (S w) n)).
  rewrite <- (append_empty_r (beBytes (S w) _)).
  rewrite !beBytes_S, !append_empty_r. pose proof (pow256_pos w).
  rewrite pow256_succ.
  replace (q * (256 ^ Z.of_nat w * 256) + n)
    with ((q * 256) * 256 ^ Z.of_nat w + n) by lia.
  rewrite IH. f_equal.
  rewrite Z.div_add_l by lia.
  rewrite Z.add_comm, Z.mod_add by lia. reflexivity.
Qed.

Lemma beValue_beBytes (w : nat) :
  forall n r acc,
    beValue w (beBytes w n ++ r) acc =
    Some (acc * 256 ^ Z.of_nat w + n mod 256 ^ Z.of_nat w, r).
Proof.
  induction w as [|w IH]; intros n r acc.
  - simpl. rewrite Z.mod_1_r. f_equal. f_equal. lia.
  - rewrite beBytes_S. cbn [beValue]. pose proof (pow256_pos w).
    rewrite byte_value by (apply Z.mod_pos_bound; lia).
    rewrite IH, mod_split, pow256_succ. f_equal. f_equal. lia.
Qed.

Lemma beValue_inv (w : nat) :
  forall k acc x r,
    beValue w k acc = Some (x, r) ->
    exists n, 0 <= n < 256 ^ Z.of_nat w /\
              x = acc * 256 ^ Z.of_nat w + n /\
              k = (beBytes w n ++ r)%string.
Proof.
  induction w as [|w IH]; intros k acc x r.
  - simpl. intros [= <- <-]. exists 0. split; [lia|]. split; [lia|reflexivity].
  - destruct k as [|c k]; cbn [beValue]; [discriminate|].
    intros Hk. apply IH in Hk as (n & Hn & -> & ->).
    pose proof (ascii_value_bound c) as Hc. pose proof (pow256_pos w).
    set (C := Z.of_N (N_of_ascii c)) in *.
    exists (C * 256 ^ Z.of_nat w + n). rewrite pow256_succ.
    split; [nia|]. split; [lia|].
    rewrite beBytes_S, beBytes_add. f_equal.
    rewrite Z.div_add_l by lia.
    rewrite (Z.div_small n) by lia.
    rewrite Z.add_0_r, Z.mod_small by lia.
    unfold C. rewrite N2Z.id. symmetry. apply ascii_N_embedding.
Qed.

Lemma pow256_8 : 256 ^ Z.of_nat 8 = two64.
Proof. reflexivity. Qed.

Lemma decRev_encRev (v : Z) (r : string) :
  int64 v -> decRev (encRev v ++ r) = Some (v, r).
Proof.
  unfold int64, decRev, encRev, minInt64, maxInt64. intros Hv.
  rewrite beValue_beBytes, pow256_8. unfold two64.
  rewrite (Z.mod_small (v - _)) by lia.
  rewrite Z.mod_small by lia. f_equal. f_equal. lia.
Qed.

Lemma decRev_inv (k r : string) (v : Z) :
  decRev k = Some (v, r) -> int64 v /\ k = (encRev v ++ r)%string.
Proof.
  unfold decRev. destruct (beValue 8 k 0) as [[n r']|] eqn:E; [|discriminate].
  intros [= <- <-]. apply beValue_inv in E as (n' & Hn & -> & ->).
  rewrite pow256_8 in *. unfold int64, encRev, two64, minInt64, maxInt64 in *.
  split; [lia|]. f_equal. f_equal. rewrite Z.mod_small by lia. lia.
Qed.

(** Reversed integers compare in the opposite order. *)
Lemma compare_encRev (v1 v2 : Z) (r1 r2 : string) :
  int64 v1 -> int64 v2 ->
  String.compare (encRev v1 ++ r1) (encRev v2 ++ r2) =
  match v2 ?= v1 with
  | Eq => String.compare r1 r2
  | c => c
  end.
Proof.
  unfold int64, encRev, minInt64, maxInt64. intros H1 H2.
  rewrite compare_beBytes, pow256_8. unfold two64.
  rewrite (Z.mod_small (v1 - _)), (Z.mod_small (v2 - _)) by lia.
  rewrite !Z.mod_small by lia.
  destruct (v2 ?= v1) eqn:E.
  - apply Z.compare_eq_iff in E. subst. now rewrite Z.compare_refl.
  - pose proof (proj1 (Z.compare_lt_iff _ _) E) as E'.
    replace (_ ?= _) with Lt; [reflexivity|].
    symmetry. apply Z.compare_lt_iff. lia.
  - pose proof (proj1 (Z.compare_gt_iff _ _) E) as E'.
    replace (_ ?= _) with Gt; [reflexivity|].
    symmetry. apply Z.compare_gt_iff. lia.
Qed.

(** ** Keys: round trip and order *)

Lemma Decode_Encode (ak : artifactKey) :
  int64 (Version ak) -> Decode (Encode ak) = Some ak.
Proof.
  intros Hv. destruct ak as [a u s f v]. unfold Encode, Decode. simpl in *.
  rewrite !decString_encString.
  rewrite <- (append_empty_r (encRev v)), decRev_encRev by exact Hv.
  reflexivity.
Qed.

(** [Decode] accepts nothing but the output of [Encode]. *)
Lemma Decode_inv (k : string) (ak : artifactKey) :
  Decode k = Some ak -> k = Encode ak /\ int64 (Version ak).
Proof.
  unfold Decode.
  destruct (decString k) as [[a k1]|] eqn:E1; [|discriminate].
  destruct (decString k1) as [[u k2]|] eqn:E2; [|discriminate].
  destruct (decString k2) as [[s k3]|] eqn:E3; [|discriminate].
  destruct (decString k3) as [[f k4]|] eqn:E4; [|discriminate].
  destruct (decRev k4) as [[v [|c r]]|] eqn:E5; try discriminate.
  intros [= <-].
  apply decString_inv in E1, E2, E3, E4. apply decRev_inv in E5 as [Hv E5].
  subst. split; [|exact Hv].
  unfold Encode. simpl. now rewrite append_empty_r.
Qed.

Lemma Encode_inj (k1 k2 : artifactKey) :
  int64 (Version k1) -> int64 (Version k2) ->
  Encode k1 = Encode k2 -> k1 = k2.
Proof.
  intros H1 H2 E. apply Decode_Encode in H1, H2.
  rewrite E in H1. congruence.
Qed.

(** [Encode] is an order embedding for [key_compare]. *)
Lemma compare_Encode (k1 k2 : artifactKey) :
  int64 (Version k1) -> int64 (Version k2) ->
  String.compare (Encode k1) (Encode k2) = key_compare k1 k2.
Proof.
  intros H1 H2. unfold Encode, key_compare.
  rewrite !compare_encString.
  rewrite <- (append_empty_r (encRev (Version k1))).
  rewrite <- (append_empty_r (encRev (Version k2))).
  rewrite compare_encRev by assumption.
  destruct (Version k2 ?= Version k1); reflexivity.
Qed.

Lemma range_field (x y : string) (c1 c2 : comparison) (Q : Prop) :
  (c1 <> Gt /\ c2 <> Gt <-> Q) ->
  (match String.compare x y with Eq => c1 | c => c end <> Gt /\
   match String.compare y x with Eq => c2 | c => c end <> Gt
   <-> x = y /\ Q).
Proof.
  intros HQ. rewrite (String.compare_antisym y x).
  destruct (String.compare x y) eqn:E; simpl.
  - apply compare_eq in E. tauto.
  - split; [intros [_ H]; congruence|].
    intros [-> _]. rewrite compare_refl in E. discriminate.
  - split; [intros [H _]; congruence|].
    intros [-> _]. rewrite compare_refl in E. discriminate.
Qed.

(** The bounds [find], [Delete] and [Versions] build enclose exactly
    the keys of one file with a version in [0 .. maxInt64]. *)
Lemma in_file_range (a u se f : string) (key : artifactKey) :
  int64 (Version key) ->
  (OMap.in_range (Encode (mkKey a u se f maxInt64))
                 (Encode (mkKey a u se f 0)) (Encode key)
   <-> key = mkKey a u se f (Version key) /\ 0 <= Version key).
Proof.
  intros Hv. unfold OMap.in_range, sle.
  rewrite !compare_Encode by (simpl; unfold int64, minInt64, maxInt64 in *; lia).
  destruct key as [a' u' s' f' v]. unfold key_compare. simpl in *.
  rewrite range_field with (Q := u = u' /\ se = s' /\ f = f' /\ 0 <= v).
  - split.
    + intros (-> & -> & -> & -> & H). auto.
    + intros [[= -> -> -> ->] H]. auto.
  - apply range_field. apply range_field. apply range_field.
    unfold int64, minInt64, maxInt64 in *.
    change ((v ?= 9223372036854775807) <> Gt) with (v <= 9223372036854775807).
    destruct v as [|p|p]; (split; [intros [_ H] | intros H; split]);
      try lia; congruence.
Qed.

Lemma compare_append_NUL (s : string) :
  String.compare s (s ++ String NUL EmptyString) = Lt.
Proof.
  induction s as [|c s IH]; [reflexivity|].
  change (String c s ++ String NUL EmptyString)%string
    with (String c (s ++ String NUL EmptyString)).
  now rewrite compare_String, ascii_compare_refl.
Qed.

(** Within the bounds [List] builds, the keys of the session itself
    are those with its three names; only a key with an empty file
    name and a positive version lies below the lower bound. *)
Lemma in_session_range (a u se : string) (key : artifactKey) :
  int64 (Version key) ->
  (OMap.in_range (Encode (mkKey a u se EmptyString 0))
                 (Encode (mkKey a u (se ++ String NUL EmptyString) EmptyString 0))
                 (Encode key) /\ SessionID key = se
   <-> AppName key = a /\ UserID key = u /\ SessionID key = se /\
       (FileName key <> EmptyString \/ Version key <= 0)).
Proof.
  intros Hv. unfold OMap.in_range, sle.
  rewrite !compare_Encode by (simpl; unfold int64, minInt64, maxInt64 in *; lia).
  destruct key as [a' u' s' f' v]. unfold key_compare. simpl in *.
  split.
  - intros [[H1 H2] ->].
    rewrite (String.compare_antisym a' a) in H2.
    destruct (String.compare a a') eqn:Ea; simpl in *; try congruence.
    apply compare_eq in Ea. subst a'.
    rewrite (String.compare_antisym u' u) in H2.
    destruct (String.compare u u') eqn:Eu; simpl in *; try congruence.
    apply compare_eq in Eu. subst u'.
    rewrite compare_refl in H1.
    repeat split; try reflexivity.
    destruct f' as [|c f']; [right; exact H1 | left; discriminate].
  - intros (-> & -> & -> & H). split; [|reflexivity].
    rewrite !compare_refl, compare_append_NUL.
    split; [|discriminate].
    destruct f' as [|c f']; simpl; [|discriminate].
    destruct H as [H|H]; [congruence | exact H].
Qed.

(** ** The ordered map *)

Section omap_facts.
Context {V : Type}.
Implicit Types (m : gmap string V) (k lo hi : string) (v : V).

#[local] Instance key_le_transitive : Transitive (@OMap.key_le V).
Proof. intros x y z. unfold OMap.key_le. apply sle_trans. Qed.

#[local] Instance key_le_total : Total (@OMap.key_le V).
Proof. intros x y. unfold OMap.key_le. apply sle_total. Qed.

Lemma elem_of_Scan m lo hi k v :
  (k, v) ∈ OMap.Scan m lo hi <-> m !! k = Some v /\ OMap.in_range lo hi k.
Proof.
  unfold OMap.Scan. rewrite merge_sort_Permutation.
  rewrite elem_of_map_to_list, map_lookup_filter_Some. reflexivity.
Qed.

Lemma NoDup_Scan_keys m lo hi : NoDup (OMap.Scan m lo hi).*1.
Proof.
  unfold OMap.Scan. rewrite merge_sort_Permutation.
  apply NoDup_fst_map_to_list.
Qed.

Lemma StronglySorted_strict (l : list (string * V)) :
  StronglySorted OMap.key_le l -> NoDup l.*1 ->
  StronglySorted (fun x y => slt x.1 y.1) l.
Proof.
  induction 1 as [|x l Hl IH Hx]; intros Hnd; [constructor|].
  rewrite fmap_cons in Hnd. apply NoDup_cons in Hnd as [Hnotin Hnd].
  constructor; [auto|].
  apply Forall_forall. intros y Hy.
  rewrite Forall_forall in Hx. specialize (Hx y Hy).
  apply sle_cases in Hx as [Hlt|Heq]; [exact Hlt|].
  exfalso. apply Hnotin. rewrite Heq. apply list_elem_of_fmap. eauto.
Qed.

(** A scan visits the keys in strictly increasing order. *)
Lemma Scan_sorted m lo hi :
  StronglySorted (fun x y => slt x.1 y.1) (OMap.Scan m lo hi).
Proof.
  apply StronglySorted_strict; [|apply NoDup_Scan_keys].
  unfold OMap.Scan. apply StronglySorted_merge_sort; apply _.
Qed.

Lemma lookup_DeleteRange m lo hi k :
  OMap.DeleteRange m lo hi !! k =
  if decide (OMap.in_range lo hi k) then None else m !! k.
Proof.
  unfold OMap.DeleteRange. destruct (decide (OMap.in_range lo hi k)) as [H|H].
  - apply map_lookup_filter_None. right. intros v _ Hn. exact (Hn H).
  - destruct (m !! k) as [v|] eqn:E.
    + apply map_lookup_filter_Some. auto.
    + apply map_lookup_filter_None. auto.
Qed.

End omap_facts.

Lemma StronglySorted_omap {A B : Type} (R : A -> A -> Prop)
  (R' : B -> B -> Prop) (g : A -> option B) (l : list A) :
  (forall x y x' y', R x y -> g x = Some x' -> g y = Some y' -> R' x' y') ->
  StronglySorted R l -> StronglySorted R' (omap g l).
Proof.
  intros HR. induction 1 as [|x l Hl IH Hx]; simpl; [constructor|].
  destruct (g x) as [x'|] eqn:Ex; [|exact IH].
  constructor; [exact IH|].
  apply Forall_forall. intros y' Hy'.
  apply list_elem_of_omap in Hy' as (y & Hy & Ey).
  rewrite Forall_forall in Hx. eauto.
Qed.

Lemma StronglySorted_impl_elem {A : Type} (R R' : A -> A -> Prop)
  (l : list A) :
  (forall x y, x ∈ l -> y ∈ l -> R x y -> R' x y) ->
  StronglySorted R l -> StronglySorted R' l.
Proof.
  intros HR Hs. induction Hs as [|x l Hl IH Hx]; [constructor|].
  constructor.
  - apply IH. intros y z Hy Hz. apply HR; now apply list_elem_of_further.
  - apply Forall_forall. intros y Hy. rewrite Forall_forall in Hx.
    apply HR; [apply list_elem_of_here | now apply list_elem_of_further | auto].
Qed.

(** ** The service's scans *)

Section scan_facts.
Context {Part : Type}.
Implicit Types (s : gmap string (option Part)) (key : artifactKey)
  (val : option Part).

Lemma elem_of_scan s lo hi key val :
  (key, val) ∈ inMemoryService.scan s lo hi <->
  stored s key val /\ OMap.in_range lo hi (Encode key).
Proof.
  unfold inMemoryService.scan, stored. rewrite list_elem_of_omap. split.
  - intros ([k v] & Hin & Hdec). simpl in Hdec.
    destruct (Decode k) as [key'|] eqn:E; [|discriminate].
    injection Hdec as -> ->.
    apply Decode_inv in E as [-> Hv].
    apply elem_of_Scan in Hin as [Hlk Hr]. auto.
  - intros [[Hv Hlk] Hr]. exists (Encode key, val). split.
    + apply elem_of_Scan. auto.
    + simpl. now rewrite Decode_Encode.
Qed.

Lemma scan_sorted s lo hi :
  StronglySorted (fun x y => slt (Encode x.1) (Encode y.1))
                 (inMemoryService.scan s lo hi).
Proof.
  unfold inMemoryService.scan.
  apply StronglySorted_omap with (R := fun x y => slt x.1 y.1);
    [|apply Scan_sorted].
  intros [k1 v1] [k2 v2] [key1 w1] [key2 w2] Hlt H1 H2. simpl in *.
  destruct (Decode k1) as [d1|] eqn:E1; [|discriminate].
  destruct (Decode k2) as [d2|] eqn:E2; [|discriminate].
  injection H1 as -> ->. injection H2 as -> ->.
  apply Decode_inv in E1 as [-> _], E2 as [-> _]. exact Hlt.
Qed.

Lemma elem_of_fileScan s a u se f key val :
  (key, val) ∈ fileScan s a u se f <->
  key = mkKey a u se f (Version key) /\ 0 <= Version key /\
  stored s key val.
Proof.
  unfold fileScan. rewrite elem_of_scan. split.
  - intros [Hst Hr]. pose proof Hst as [Hv _].
    apply in_file_range in Hr as [? ?]; auto.
  - intros (Hk & H0 & Hst). split; [exact Hst|].
    pose proof Hst as [Hv _]. apply in_file_range; auto.
Qed.

(** It lists the versions of the file from the highest down. *)
Lemma fileScan_sorted s a u se f :
  StronglySorted (fun x y => Version y.1 < Version x.1)
                 (fileScan s a u se f).
Proof.
  eapply StronglySorted_impl_elem; [|apply scan_sorted].
  intros [k1 v1] [k2 v2] H1 H2 Hlt.
  apply elem_of_fileScan in H1 as (E1 & _ & Hv1 & _).
  apply elem_of_fileScan in H2 as (E2 & _ & Hv2 & _).
  simpl in *. unfold slt in Hlt.
  rewrite compare_Encode in Hlt by assumption.
  rewrite E1, E2 in Hlt. unfold key_compare in Hlt. simpl in Hlt.
  rewrite !compare_refl in Hlt. now apply Z.compare_lt_iff.
Qed.

End scan_facts.

(** ** [find]: the latest version *)

Section find_facts.
Context {Part : Type}.
Implicit Types (s : gmap string (option Part)) (val : option Part).

Lemma find_unfold s a u se f :
  inMemoryService.find s a u se f =
  match fileScan s a u se f with
  | (key, val) :: _ => (Version key, val, true)
  | [] => (0, None, false)
  end.
Proof. reflexivity. Qed.

Lemma stored_functional s key val val' :
  stored s key val -> stored s key val' -> val = val'.
Proof. intros [_ H1] [_ H2]. congruence. Qed.

(** The head of a file scan is the highest non-negative version. *)
Lemma fileScan_head s a u se f key val rest :
  fileScan s a u se f = (key, val) :: rest ->
  key = mkKey a u se f (Version key) /\ 0 <= Version key /\
  stored s key val /\
  forall v' val', 0 <= v' -> stored s (mkKey a u se f v') val' ->
                  v' <= Version key.
Proof.
  intros E.
  assert ((key, val) ∈ fileScan s a u se f) as Hin
    by (rewrite E; apply list_elem_of_here).
  apply elem_of_fileScan in Hin as (Hk & H0 & Hst).
  split; [exact Hk|]. split; [exact H0|]. split; [exact Hst|].
  intros v' val' Hv' Hst'.
  assert ((mkKey a u se f v', val') ∈ fileScan s a u se f) as Hin'
    by (apply elem_of_fileScan; auto).
  rewrite E in Hin'. apply elem_of_cons in Hin' as [Heq|Hin'].
  - injection Heq as Heq _. rewrite <- Heq. simpl. lia.
  - pose proof (fileScan_sorted s a u se f) as Hs. rewrite E in Hs.
    apply StronglySorted_inv in Hs as [_ Hall].
    rewrite Forall_forall in Hall. specialize (Hall _ Hin'). simpl in Hall.
    lia.
Qed.

Lemma fileScan_nil s a u se f :
  fileScan s a u se f = [] <->
  forall v val, 0 <= v -> ~ stored s (mkKey a u se f v) val.
Proof.
  split.
  - intros E v val Hv Hst.
    assert ((mkKey a u se f v, val) ∈ fileScan s a u se f) as Hin
      by (apply elem_of_fileScan; auto).
    rewrite E in Hin. now apply not_elem_of_nil in Hin.
  - intros H. destruct (fileScan s a u se f) as [|[key val] rest] eqn:E;
      [reflexivity|].
    apply fileScan_head in E as (Hk & H0 & Hst & _).
    rewrite Hk in Hst. exfalso. exact (H _ _ H0 Hst).
Qed.

Lemma find_cases s a u se f :
  (exists v val,
      inMemoryService.find s a u se f = (v, val, true) /\
      0 <= v <= maxInt64 /\ stored s (mkKey a u se f v) val /\
      forall v' val', 0 <= v' -> stored s (mkKey a u se f v') val' ->
                      v' <= v) \/
  (inMemoryService.find s a u se f = (0, None, false) /\
   forall v val, 0 <= v -> ~ stored s (mkKey a u se f v) val).
Proof.
  rewrite find_unfold.
  destruct (fileScan s a u se f) as [|[key val] rest] eqn:E.
  - right. split; [reflexivity|]. now apply fileScan_nil.
  - left. apply fileScan_head in E as (Hk & H0 & Hst & Hmax).
    exists (Version key), val. rewrite <- Hk.
    pose proof Hst as [Hv _]. unfold int64 in Hv.
    split; [reflexivity|]. split; [lia|]. split; [exact Hst | exact Hmax].
Qed.

End find_facts.

(** ** [Save] *)

Section save_facts.
Context {Part : Type}.
Implicit Types (s : gmap string (option Part)) (val : option Part).

Lemma eqb_empty_false (x : string) : x <> EmptyString ->
String.eqb x EmptyString = false.
Proof. apply String.eqb_neq. Qed.

Lemma Save_valid s a u se f (p : Part) ver :
  a <> EmptyString -> u <> EmptyString -> se <> EmptyString ->
  f <> EmptyString ->
  inMemoryService.Save s (SaveRequest.mk a u se f (Some p) ver) =
  let nextVersion :=
    match inMemoryService.find s a u se f with
    | (internalVer, _, true) => wrap64 (internalVer + 1)
    | (_, _, false) => 1
    end in
  (Ok (SaveResponse.mk nextVersion),
   <[Encode (mkKey a u se f nextVersion) := Some p]> s).
Proof.
  intros Ha Hu Hs Hf. unfold inMemoryService.Save. simpl.
  rewrite !eqb_empty_false by assumption. reflexivity.
Qed.

Lemma wrap64_small (z : Z) : int64 z -> wrap64 z = z.
Proof.
  unfold int64, wrap64, minInt64, maxInt64, two64. intros H.
  rewrite Z.mod_small by lia. lia.
Qed.

Lemma Save_latest s a u se f (p : Part) ver n :
  a <> EmptyString -> u <> EmptyString -> se <> EmptyString ->
  f <> EmptyString ->
  latest s a u se f n -> n < maxInt64 ->
  inMemoryService.Save s (SaveRequest.mk a u se f (Some p) ver) =
  (Ok (SaveResponse.mk (n + 1)),
   <[Encode (mkKey a u se f (n + 1)) := Some p]> s).
Proof.
  intros Ha Hu Hs Hf Hl Hn. rewrite Save_valid by assumption. simpl.
  destruct (find_cases s a u se f) as
    [(v & val & -> & Hv & Hst & Hmax)|[-> Hnone]];
    destruct Hl as [[-> Hl]|(H0 & [val' Hst'] & Hl)].
  - exfalso. apply (Hl v val); [lia | exact Hst].
  - assert (v = n) as ->.
    { apply Z.le_antisymm; [|eauto].
      destruct (Z_le_gt_dec v n); [assumption|].
      exfalso. apply (Hl v val); [lia | exact Hst]. }
    rewrite wrap64_small
      by (unfold int64, minInt64, maxInt64 in *; lia).
    reflexivity.
  - reflexivity.
  - exfalso. exact (Hnone _ _ H0 Hst').
Qed.

Lemma stored_insert s key key' (p : Part) val :
  int64 (Version key) ->
  stored (<[Encode key := Some p]> s) key' val <->
  (key' = key /\ val = Some p) \/ (key' <> key /\ stored s key' val).
Proof.
  intros Hv. unfold stored. rewrite lookup_insert.
  destruct (decide (Encode key = Encode key')) as [E|E].
  - split.
    + intros [Hv' [= <-]]. left. split; [|reflexivity].
      symmetry. now apply Encode_inj.
    + intros [[-> ->]|[Hne [Hv' _]]]; [auto|].
      exfalso. apply Hne. symmetry. now apply Encode_inj.
  - split.
    + intros H. right. split; [|exact H]. intros ->. now apply E.
    + intros [[-> _]|[_ H]]; [now exfalso; apply E | exact H].
Qed.

Lemma latest_Save s a u se f (p : Part) n :
  latest s a u se f n -> n < maxInt64 ->
  latest (<[Encode (mkKey a u se f (n + 1)) := Some p]> s) a u se f (n + 1).
Proof.
  intros Hl Hn.
  assert (0 <= n) as H0 by (destruct Hl as [[-> _]|[? _]]; lia).
  assert (int64 (n + 1)) as Hv
    by (unfold int64, minInt64, maxInt64 in *; lia).
  right. split; [lia|]. split.
  - exists (Some p). apply stored_insert; auto.
  - intros v val Hlt Hst. apply stored_insert in Hst; [|exact Hv].
    destruct Hst as [[[= ->] _]|[_ Hst]]; [lia|].
    destruct Hl as [[-> Hl]|(_ & _ & Hl)]; apply (Hl v val); auto; lia.
Qed.

End save_facts.

Lemma seq_shift_map {A : Type} (g : nat -> A) (a n : nat) :
  map g (seq (S a) n) = map (fun i => g (S i)) (seq a n).
Proof. rewrite <- seq_shift, map_map. reflexivity. Qed.

(** From a state whose latest version of the file is [n], the saves
    return [n + 1], [n + 2], ... *)
Lemma saveAll_from {Part : Type} (parts : list Part) :
  forall (s : gmap string (option Part)) a u se f n,
    a <> EmptyString -> u <> EmptyString -> se <> EmptyString ->
    f <> EmptyString ->
    latest s a u se f n ->
    n + Z.of_nat (length parts) <= maxInt64 ->
    (saveAll s a u se f parts).1 =
    map (fun i => Ok (SaveResponse.mk (n + Z.of_nat i)))
        (seq 1 (length parts)).
Proof.
  induction parts as [|p parts IH]; intros s a u se f n Ha Hu Hs Hf Hl Hn;
    [reflexivity|].
  assert (0 <= n) as H0 by (destruct Hl as [[-> _]|[? _]]; lia).
  cbn [saveAll]. cbn [length] in Hn.
  rewrite (Save_latest s a u se f p 0 n) by (auto; lia).
  assert (latest (<[Encode (mkKey a u se f (n + 1)) := Some p]> s)
                 a u se f (n + 1)) as Hl'
    by (apply latest_Save; [exact Hl | lia]).
  assert (n + 1 + Z.of_nat (length parts) <= maxInt64) as Hn' by lia.
  specialize (IH _ a u se f (n + 1) Ha Hu Hs Hf Hl' Hn').
  destruct (saveAll _ a u se f parts) as [rs s''].
  cbn [fst] in *. subst rs.
  cbn [length seq map]. f_equal.
  rewrite (seq_shift_map _ 1). apply map_ext. intros i.
  do 2 f_equal. lia.
Qed.

(** A save at the next version keeps every record already stored. *)
Lemma stored_Save_next {Part : Type} (s : gmap string (option Part))
  a u se f (p : Part) n key val :
  latest s a u se f n -> n < maxInt64 ->
  stored s key val ->
  stored (<[Encode (mkKey a u se f (n + 1)) := Some p]> s) key val.
Proof.
  intros Hl Hn Hst.
  assert (0 <= n) as H0 by (destruct Hl as [[-> _]|[? _]]; lia).
  apply stored_insert;
    [simpl; unfold int64, minInt64, maxInt64 in *; lia|].
  right. split; [|exact Hst]. intros ->.
  destruct Hl as [[-> Hl]|(_ & _ & Hl)].
  - apply (Hl (0 + 1) val); [lia | exact Hst].
  - apply (Hl (n + 1) val); [lia | exact Hst].
Qed.

Lemma saveAll_state {Part : Type} (parts : list Part) :
  forall (s : gmap string (option Part)) a u se f n,
    a <> EmptyString -> u <> EmptyString -> se <> EmptyString ->
    f <> EmptyString ->
    latest s a u se f n ->
    n + Z.of_nat (length parts) <= maxInt64 ->
    (forall key val, stored s key val ->
       stored (saveAll s a u se f parts).2 key val) /\
    (forall i p, parts !! i = Some p ->
       stored (saveAll s a u se f parts).2
              (mkKey a u se f (n + Z.of_nat (S i))) (Some p)).
Proof.
  induction parts as [|p0 parts IH]; intros s a u se f n Ha Hu Hs Hf Hl Hn.
  - split; [auto|]. intros i p H. discriminate.
  - assert (0 <= n) as H0 by (destruct Hl as [[-> _]|[? _]]; lia).
    cbn [saveAll]. cbn [length] in Hn.
    rewrite (Save_latest s a u se f p0 0 n) by (auto; lia).
    assert (latest (<[Encode (mkKey a u se f (n + 1)) := Some p0]> s)
                   a u se f (n + 1)) as Hl'
      by (apply latest_Save; [exact Hl | lia]).
    assert (n + 1 + Z.of_nat (length parts) <= maxInt64) as Hn' by lia.
    destruct (IH _ a u se f (n + 1) Ha Hu Hs Hf Hl' Hn') as [Hkeep Hnew].
    destruct (saveAll _ a u se f parts) as [rs s''].
    cbn [snd] in *. split.
    + intros key val Hst. apply Hkeep, stored_Save_next; auto. lia.
    + intros [|i] p Hp.
      * injection Hp as <-. apply Hkeep.
        replace (n + Z.of_nat 1) with (n + 1) by lia.
        apply stored_insert;
          [simpl; unfold int64, minInt64, maxInt64 in *; lia | auto].
      * replace (n + Z.of_nat (S (S i))) with (n + 1 + Z.of_nat (S i))
          by lia.
        apply Hnew. exact Hp.
Qed.

(** * Main results *)

(** C1 (the code departs from it).  [Save] never reads the [Version]
    field of its request, although [SaveRequest] documents that "if
    set, the artifact will be saved with this version": whatever the
    requested version, the record goes to the latest version plus one.
    On the empty store a save at explicit version 5 returns version 1,
    stores the payload under version 1 and leaves version 5 absent. *)
Theorem C1_Save_ignores_explicit_version :
  (forall (s : gmap string (option string)) a u se f p v v',
      inMemoryService.Save s (SaveRequest.mk a u se f p v) =
      inMemoryService.Save s (SaveRequest.mk a u se f p v')) /\
  let r := inMemoryService.Save (inMemoryService.Mem (Part := string))
             (SaveRequest.mk "a" "u" "s" "f" (Some "P") 5) in
  r.1 = Ok (SaveResponse.mk 1) /\
  inMemoryService.get r.2 "a" "u" "s" "f" 5 = None /\
  inMemoryService.get r.2 "a" "u" "s" "f" 1 = Some (Some "P").
Proof.
  split; [reflexivity|]. vm_compute. auto.
Qed.

(** C2.  Starting from a state with no version of the file, saving
    [N] payloads in turn with the version unset returns the versions
    1, 2, ..., [N] in call order, and the i-th payload ends up stored
    under version i ([N] being a count of [int64] versions, at most
    [maxInt64]). *)
Theorem C2_Save_auto_versions {Part : Type}
  (s : gmap string (option Part)) (a u se f : string) (parts : list Part) :
  a <> EmptyString -> u <> EmptyString -> se <> EmptyString ->
  f <> EmptyString ->
  (forall v val, ~ stored s (mkKey a u se f v) val) ->
  Z.of_nat (length parts) <= maxInt64 ->
  (saveAll s a u se f parts).1 =
  map (fun i => Ok (SaveResponse.mk (Z.of_nat i))) (seq 1 (length parts)) /\
  forall i p, parts !! i = Some p ->
    stored (saveAll s a u se f parts).2
           (mkKey a u se f (Z.of_nat (S i))) (Some p).
Proof.
  intros Ha Hu Hs Hf Hnone Hn.
  assert (latest s a u se f 0) as Hl
    by (left; split; [reflexivity|]; intros v val _; apply Hnone).
  split.
  - apply (saveAll_from parts s a u se f 0); auto.
  - intros i p Hp.
    apply (proj2 (saveAll_state parts s a u se f 0 Ha Hu Hs Hf Hl Hn) i p Hp).
Qed.

Lemma C2_Save_auto_versions_witness :
  (saveAll (∅ : gmap string (option string)) "a" "u" "s" "f"
           ["P1"; "P2"; "P3"]).1 =
  [Ok (SaveResponse.mk 1); Ok (SaveResponse.mk 2); Ok (SaveResponse.mk 3)].
Proof.
  refine (proj1 (C2_Save_auto_versions (∅ : gmap string (option string))
           "a" "u" "s" "f" ["P1"; "P2"; "P3"] _ _ _ _ _ _));
    [discriminate | discriminate | discriminate | discriminate | | ].
  - intros v val [_ H]. rewrite lookup_empty in H. discriminate.
  - unfold maxInt64. simpl. lia.
Defined.

(** C3.  For every valid key (four non-empty names, version at least
    1), decoding the encoded key succeeds and gives the key back;
    hence two valid keys with the same encoding are equal. *)
Theorem C3_Decode_Encode_roundtrip (ak : artifactKey) :
  valid_key ak ->
  Decode (Encode ak) = Some ak /\
  forall ak', valid_key ak' -> Encode ak' = Encode ak -> ak' = ak.
Proof.
  intros (_ & _ & _ & _ & Hv).
  assert (int64 (Version ak)) as Hi
    by (unfold int64, minInt64, maxInt64 in *; lia).
  split; [now apply Decode_Encode|].
  intros ak' (_ & _ & _ & _ & Hv') E. apply Encode_inj; auto.
  unfold int64, minInt64, maxInt64 in *; lia.
Qed.

Lemma C3_Decode_Encode_roundtrip_witness :
  let ak := mkKey "testapp" "testuser" "testsession" "testfile" 123 in
  Decode (Encode ak) = Some ak /\
  forall ak', valid_key ak' -> Encode ak' = Encode ak -> ak' = ak.
Proof.
  apply (C3_Decode_Encode_roundtrip
           (mkKey "testapp" "testuser" "testsession" "testfile" 123)).
  unfold valid_key, maxInt64. simpl.
  repeat split; try discriminate; lia.
Defined.

(** C4.  For a fixed file with non-empty names and versions
    [v1 > v2 >= 0], the key of [v1] encodes strictly below the key of
    [v2]; so the scan of the file's range, on any store, is empty
    exactly when no version from 0 of the file is stored, and otherwise
    its first pair is a stored record of this very file, whose version
    is the highest stored one and whose encoded key is strictly below
    that of every other stored version of the file. *)
Theorem C4_Encode_reverse_version_order (a u se f : string) (v1 v2 : Z) :
  a <> EmptyString -> u <> EmptyString -> se <> EmptyString ->
  f <> EmptyString ->
  0 <= v2 -> v2 < v1 -> v1 <= maxInt64 ->
  slt (Encode (mkKey a u se f v1)) (Encode (mkKey a u se f v2)) /\
  forall (Part : Type) (s : gmap string (option Part)),
    (forall key val rest,
       inMemoryService.scan s (Encode (mkKey a u se f maxInt64))
                              (Encode (mkKey a u se f 0))
       = (key, val) :: rest ->
       key = mkKey a u se f (Version key) /\
       0 <= Version key <= maxInt64 /\
       stored s key val /\
       (forall v' val', 0 <= v' -> stored s (mkKey a u se f v') val' ->
                        v' <= Version key) /\
       (forall v' val', 0 <= v' -> stored s (mkKey a u se f v') val' ->
                        v' <> Version key ->
                        slt (Encode key) (Encode (mkKey a u se f v')))) /\
    (inMemoryService.scan s (Encode (mkKey a u se f maxInt64))
                            (Encode (mkKey a u se f 0)) = [] <->
     forall v' val', 0 <= v' -> ~ stored s (mkKey a u se f v') val').
Proof.
  intros _ _ _ _ H2 H12 H1.
  assert (forall w1 w2, 0 <= w2 -> w2 < w1 -> w1 <= maxInt64 ->
            slt (Encode (mkKey a u se f w1)) (Encode (mkKey a u se f w2)))
    as Hord.
  { intros w1 w2 Hw2 Hw12 Hw1. unfold slt. rewrite compare_Encode
      by (simpl; unfold int64, minInt64, maxInt64 in *; lia).
    unfold key_compare. simpl. rewrite !compare_refl.
    now apply Z.compare_lt_iff. }
  split; [now apply Hord|].
  intros Part s. split; [|apply fileScan_nil].
  intros key val rest E.
  apply (fileScan_head s a u se f) in E as (Hk & H0 & Hst & Hmax).
  assert (Version key <= maxInt64) as Hle
    by (destruct Hst as [Hv _]; unfold int64 in Hv; lia).
  split; [exact Hk|]. split; [lia|]. split; [exact Hst|].
  split; [exact Hmax|].
  intros v' val' Hv' Hst' Hne. rewrite Hk. cbn [Version].
  apply Hord; [exact Hv' | | exact Hle].
  pose proof (Hmax v' val' Hv' Hst'). lia.
Qed.

Lemma C4_Encode_reverse_version_order_witness :
  slt (Encode (testKey "file1" 3)) (Encode (testKey "file1" 2)) /\
  exists val rest,
    inMemoryService.scan testStore (Encode (testKey "file1" maxInt64))
                                   (Encode (testKey "file1" 0))
    = (testKey "file1" 3, val) :: rest /\
    stored testStore (testKey "file1" 3) val /\
    (forall v' val', 0 <= v' -> stored testStore (testKey "file1" v') val' ->
                     v' <= 3) /\
    slt (Encode (testKey "file1" 3)) (Encode (testKey "file1" 1)).
Proof.
  destruct (C4_Encode_reverse_version_order
              "testapp" "testuser" "testsession" "file1" 3 2)
    as [Hord Hscan];
    [discriminate | discriminate | discriminate | discriminate
    | lia | lia | unfold maxInt64; lia |].
  split; [exact Hord|].
  eexists _, _. split; [vm_compute; reflexivity|].
  destruct (proj1 (Hscan string testStore) (testKey "file1" 3) _ _
                  ltac:(vm_compute; reflexivity))
    as (_ & _ & Hst & Hmax & Hfirst).
  split; [exact Hst|]. split; [exact Hmax|].
  apply (Hfirst 1 (Some "file v1")); [lia | | simpl; lia].
  split; [unfold int64, minInt64, maxInt64; simpl; lia|].
  vm_compute. reflexivity.
Defined.

(** ** [Load] *)

Section load_facts.
Context {Part : Type}.
Implicit Types (s : gmap string (option Part)) (val p : option Part).

Lemma Load_valid s a u se f ver :
  a <> EmptyString -> u <> EmptyString -> se <> EmptyString ->
  f <> EmptyString ->
  inMemoryService.Load s (LoadRequest.mk a u se f ver) =
  if 0 <? ver
  then match s !! Encode (mkKey a u se f ver) with
       | None => (Err ErrNotExist, s)
       | Some artifact => (Ok (LoadResponse.mk artifact), s)
       end
  else match inMemoryService.find s a u se f with
       | (_, _, false) => (Err ErrNotExist, s)
       | (_, artifact, true) => (Ok (LoadResponse.mk artifact), s)
       end.
Proof.
  intros Ha Hu Hs Hf. unfold inMemoryService.Load. simpl.
  rewrite !eqb_empty_false by assumption. reflexivity.
Qed.

(** Without a positive version, [Load] answers from the head of the
    file scan: the highest version among those at or above 0. *)
Lemma Load_latest s a u se f ver :
  a <> EmptyString -> u <> EmptyString -> se <> EmptyString ->
  f <> EmptyString -> ver <= 0 ->
  let r := inMemoryService.Load s (LoadRequest.mk a u se f ver) in
  r.2 = s /\
  (forall p, r.1 = Ok (LoadResponse.mk p) <->
     exists v, 0 <= v /\ stored s (mkKey a u se f v) p /\
       forall v' p', 0 <= v' -> stored s (mkKey a u se f v') p' -> v' <= v) /\
  (r.1 = Err ErrNotExist <->
     forall v p, 0 <= v -> ~ stored s (mkKey a u se f v) p).
Proof.
  intros Ha Hu Hs Hf Hver. cbv zeta. rewrite Load_valid by assumption.
  replace (0 <? ver) with false by (symmetry; apply Z.ltb_ge; lia).
  destruct (find_cases s a u se f) as
    [(v & val & -> & Hv & Hst & Hmax)|[-> Hnone]]; cbn [fst snd].
  - split; [reflexivity|]. split.
    + intros p. split.
      * intros [= <-]. exists v. split; [lia|]. auto.
      * intros (v0 & H0 & Hst0 & Hmax0).
        assert (v0 = v) as ->.
        { apply Z.le_antisymm.
          - apply (Hmax v0 p); [exact H0 | exact Hst0].
          - apply (Hmax0 v val); [lia | exact Hst]. }
        now rewrite (stored_functional _ _ _ _ Hst Hst0).
    + split; [discriminate|].
      intros Hnone. exfalso. apply (Hnone v val); [lia | exact Hst].
  - split; [reflexivity|]. split.
    + intros p. split; [discriminate|].
      intros (v0 & H0 & Hst0 & _). exfalso. exact (Hnone _ _ H0 Hst0).
    + split; auto.
Qed.

(** Under the invariant of the data model every stored version is
    at least 1, and the restriction to versions from 0 disappears. *)
Lemma Load_latest_inv s a u se f ver :
  a <> EmptyString -> u <> EmptyString -> se <> EmptyString ->
  f <> EmptyString -> ver <= 0 ->
  store_inv s ->
  let r := inMemoryService.Load s (LoadRequest.mk a u se f ver) in
  (forall p, r.1 = Ok (LoadResponse.mk p) <->
     exists v, stored s (mkKey a u se f v) p /\
       forall v' p', stored s (mkKey a u se f v') p' -> v' <= v) /\
  (r.1 = Err ErrNotExist <->
     forall v p, ~ stored s (mkKey a u se f v) p).
Proof.
  intros Ha Hu Hs Hf Hver Hinv.
  assert (forall v p, stored s (mkKey a u se f v) p -> 0 <= v) as Hpos.
  { intros v p Hst. apply Hinv in Hst as (_ & _ & _ & _ & Hv).
    simpl in Hv. lia. }
  destruct (Load_latest s a u se f ver Ha Hu Hs Hf Hver) as (_ & HOk & HErr).
  cbv zeta in *. split.
  - intros p. rewrite HOk. split.
    + intros (v & _ & Hst & Hmax). exists v. split; [exact Hst|].
      intros v' p' Hst'. eapply Hmax; eauto.
    + intros (v & Hst & Hmax). exists v. split; [eauto|]. split; eauto.
  - rewrite HErr. split.
    + intros H v p Hst. eapply H; eauto.
    + intros H v p _. apply H.
Qed.

End load_facts.

(** C5.  For a [Load] request with non-empty names: the store is left
    unchanged; with the version unset (0) it returns the payload of
    the highest stored version of the file, and with a version set
    (at least 1) exactly the payload stored at that version; in either
    case it fails with not-found exactly when no matching record
    exists.  (For the unset case the store satisfies the data-model
    invariant: stored versions are at least 1.) *)
Theorem C5_Load_spec {Part : Type} (s : gmap string (option Part))
  (a u se f : string) (ver : Z) :
  a <> EmptyString -> u <> EmptyString -> se <> EmptyString ->
  f <> EmptyString ->
  let r := inMemoryService.Load s (LoadRequest.mk a u se f ver) in
  r.2 = s /\
  (ver = 0 -> store_inv s ->
     (forall p, r.1 = Ok (LoadResponse.mk p) <->
        exists v, stored s (mkKey a u se f v) p /\
          forall v' p', stored s (mkKey a u se f v') p' -> v' <= v) /\
     (r.1 = Err ErrNotExist <->
        forall v p, ~ stored s (mkKey a u se f v) p)) /\
  (1 <= ver <= maxInt64 ->
     (forall p, r.1 = Ok (LoadResponse.mk p) <->
        stored s (mkKey a u se f ver) p) /\
     (r.1 = Err ErrNotExist <->
        forall p, ~ stored s (mkKey a u se f ver) p)).
Proof.
  intros Ha Hu Hs Hf. cbv zeta. split; [|split].
  - rewrite Load_valid by assumption.
    destruct (0 <? ver).
    + now destruct (s !! _).
    + now destruct (inMemoryService.find s a u se f) as [[? ?] []].
  - intros -> Hinv. now apply Load_latest_inv.
  - intros Hver. rewrite Load_valid by assumption.
    replace (0 <? ver) with true by (symmetry; apply Z.ltb_lt; lia).
    assert (int64 ver) as Hi
      by (unfold int64, minInt64, maxInt64 in *; lia).
    unfold stored. simpl.
    destruct (s !! Encode (mkKey a u se f ver)) as [val|] eqn:E; cbn [fst].
    + split.
      * intros p. split; [intros [= <-]; auto | intros [_ [= <-]]; auto].
      * split; [discriminate|]. intros H. exfalso. apply (H val). auto.
    + split.
      * intros p. split; [discriminate | intros [_ ?]; discriminate].
      * split; [|reflexivity]. intros _ p [_ ?]. discriminate.
Qed.

(** ** The invariant of the data model *)

Section invariant.
Context {Part : Type}.
Implicit Types (s : gmap string (option Part)).

Lemma store_inv_empty : store_inv (∅ : gmap string (option Part)).
Proof. intros key val [_ H]. rewrite lookup_empty in H. discriminate. Qed.

Lemma store_inv_insert s key (p : Part) :
  valid_key key -> store_inv s -> store_inv (<[Encode key := Some p]> s).
Proof.
  intros Hk Hinv key' val Hst.
  assert (int64 (Version key)) as Hv.
  { destruct Hk as (_ & _ & _ & _ & Hv).
    unfold int64, minInt64, maxInt64 in *. lia. }
  apply stored_insert in Hst as [[-> _]|[_ Hst]]; eauto.
Qed.

(** [Save] keeps the invariant as long as versions do not run out. *)
Lemma store_inv_Save s a u se f (p : Part) ver n :
  a <> EmptyString -> u <> EmptyString -> se <> EmptyString ->
  f <> EmptyString ->
  latest s a u se f n -> n < maxInt64 -> store_inv s ->
  store_inv (inMemoryService.Save s (SaveRequest.mk a u se f (Some p) ver)).2.
Proof.
  intros Ha Hu Hs Hf Hl Hn Hinv.
  rewrite (Save_latest s a u se f p ver n) by assumption. cbn [snd].
  apply store_inv_insert; [|exact Hinv].
  assert (0 <= n) by (destruct Hl as [[-> _]|[? _]]; lia).
  unfold valid_key. simpl. repeat split; auto; lia.
Qed.

Lemma stored_delete s k key val :
  stored (base.delete k s) key val -> stored s key val.
Proof.
  intros [Hv H]. split; [exact Hv|].
  apply lookup_delete_Some in H as [_ H]. exact H.
Qed.

Lemma stored_DeleteRange s lo hi key val :
  stored (OMap.DeleteRange s lo hi) key val <->
  stored s key val /\ ~ OMap.in_range lo hi (Encode key).
Proof.
  unfold stored. rewrite lookup_DeleteRange.
  destruct (decide (OMap.in_range lo hi (Encode key))) as [H|H].
  - split; [intros [_ ?]; discriminate | tauto].
  - tauto.
Qed.

(** [Delete] only removes records. *)
Lemma store_inv_Delete s (req : DeleteRequest.t) :
  store_inv s -> store_inv (inMemoryService.Delete s req).2.
Proof.
  intros Hinv key val Hst. apply (Hinv key val).
  unfold inMemoryService.Delete, inMemoryService.delete, OMap.Delete in Hst.
  cbv zeta in Hst.
  destruct (_ || _); [exact Hst|].
  destruct (negb _); cbn [snd] in Hst.
  - eapply stored_delete; eauto.
  - apply stored_DeleteRange in Hst as [Hst _]. exact Hst.
Qed.

End invariant.

Lemma testStore_eq :
  testStore =
  <[Encode (testKey "file2" 1) := Some "file v3"]>
    (<[Encode (testKey "file1" 3) := Some "file v3"]>
       (<[Encode (testKey "file1" 2) := Some "file v2"]>
          (<[Encode (testKey "file1" 1) := Some "file v1"]> ∅))).
Proof. vm_compute. reflexivity. Qed.

Lemma valid_testKey (f : string) (v : Z) :
  f <> EmptyString -> 1 <= v <= maxInt64 -> valid_key (testKey f v).
Proof.
  intros Hf Hv. unfold valid_key, testKey. simpl.
  repeat split; try discriminate; auto; lia.
Qed.

Lemma store_inv_testStore : store_inv testStore.
Proof.
  rewrite testStore_eq.
  repeat (apply store_inv_insert;
          [apply valid_testKey; [discriminate | unfold maxInt64; lia]|]).
  apply store_inv_empty.
Qed.

Lemma C5_Load_spec_witness :
  let r := inMemoryService.Load testStore
             (LoadRequest.mk "testapp" "testuser" "testsession" "file1" 0) in
  r.2 = testStore /\
  (forall p, r.1 = Ok (LoadResponse.mk p) <->
     exists v, stored testStore (testKey "file1" v) p /\
       forall v' p', stored testStore (testKey "file1" v') p' -> v' <= v).
Proof.
  destruct (C5_Load_spec testStore "testapp" "testuser" "testsession"
              "file1" 0) as (H1 & H2 & _);
    [discriminate | discriminate | discriminate | discriminate |].
  split; [exact H1|].
  apply H2; [reflexivity | apply store_inv_testStore].
Defined.

(** C10.  A [Load] whose version is strictly negative behaves exactly
    like the same [Load] with the version unset: only a version above
    zero takes the point lookup.  So it returns the payload of the
    highest stored version of the file, or not-found when the file
    has none. *)
Theorem C10_Load_negative_version {Part : Type}
  (s : gmap string (option Part)) (a u se f : string) (ver : Z) :
  a <> EmptyString -> u <> EmptyString -> se <> EmptyString ->
  f <> EmptyString -> ver < 0 ->
  inMemoryService.Load s (LoadRequest.mk a u se f ver) =
  inMemoryService.Load s (LoadRequest.mk a u se f 0) /\
  let r := inMemoryService.Load s (LoadRequest.mk a u se f ver) in
  (store_inv s ->
     (forall p, r.1 = Ok (LoadResponse.mk p) <->
        exists v, stored s (mkKey a u se f v) p /\
          forall v' p', stored s (mkKey a u se f v') p' -> v' <= v) /\
     (r.1 = Err ErrNotExist <->
        forall v p, ~ stored s (mkKey a u se f v) p)).
Proof.
  intros Ha Hu Hs Hf Hver. split.
  - rewrite !Load_valid by assumption.
    replace (0 <? ver) with false by (symmetry; apply Z.ltb_ge; lia).
    reflexivity.
  - intros r Hinv. apply Load_latest_inv; auto. lia.
Qed.

Lemma C10_Load_negative_version_witness :
  inMemoryService.Load testStore
    (LoadRequest.mk "testapp" "testuser" "testsession" "file1" (-7)) =
  inMemoryService.Load testStore
    (LoadRequest.mk "testapp" "testuser" "testsession" "file1" 0).
Proof.
  apply (C10_Load_negative_version testStore "testapp" "testuser"
           "testsession" "file1" (-7));
    [discriminate | discriminate | discriminate | discriminate | lia].
Defined.

(** ** Validation *)

Lemma eqb_empty_true (x : string) : x = EmptyString ->
String.eqb x EmptyString = true.
Proof. intros ->. reflexivity. Qed.

(** C9.  For each of the five operations, a request with an empty
    required name (or, for [Save], a nil payload) is answered with the
    invalid-request error, which is not the not-found error, and the
    store is returned unchanged. *)
Theorem C9_invalid_argument {Part : Type} (s : gmap string (option Part)) :
  (forall req : SaveRequest.t Part,
      SaveRequest.AppName req = EmptyString \/
      SaveRequest.UserID req = EmptyString \/
      SaveRequest.SessionID req = EmptyString \/
      SaveRequest.FileName req = EmptyString \/
      SaveRequest.Part_ req = None ->
      inMemoryService.Save s req = (Err ErrInvalidRequest, s)) /\
  (forall req : LoadRequest.t,
      LoadRequest.AppName req = EmptyString \/
      LoadRequest.UserID req = EmptyString \/
      LoadRequest.SessionID req = EmptyString \/
      LoadRequest.FileName req = EmptyString ->
      inMemoryService.Load s req = (Err ErrInvalidRequest, s)) /\
  (forall req : DeleteRequest.t,
      DeleteRequest.AppName req = EmptyString \/
      DeleteRequest.UserID req = EmptyString \/
      DeleteRequest.SessionID req = EmptyString \/
      DeleteRequest.FileName req = EmptyString ->
      inMemoryService.Delete s req = (Some ErrInvalidRequest, s)) /\
  (forall req : ListRequest.t,
      ListRequest.AppName req = EmptyString \/
      ListRequest.UserID req = EmptyString \/
      ListRequest.SessionID req = EmptyString ->
      inMemoryService.List s req = (Err ErrInvalidRequest, s)) /\
  (forall req : VersionsRequest.t,
      VersionsRequest.AppName req = EmptyString \/
      VersionsRequest.UserID req = EmptyString \/
      VersionsRequest.SessionID req = EmptyString \/
      VersionsRequest.FileName req = EmptyString ->
      inMemoryService.Versions s req = (Err ErrInvalidRequest, s)) /\
  ErrInvalidRequest <> ErrNotExist.
Proof.
  repeat split; try discriminate.
  - intros req H. unfold inMemoryService.Save. cbv zeta.
    destruct H as [H|[H|[H|[H|H]]]]; rewrite H; cbn [inMemoryService.isNil];
      rewrite ?(eqb_empty_true EmptyString), ?orb_true_r by reflexivity; reflexivity.
  - intros req H. unfold inMemoryService.Load. cbv zeta.
    destruct H as [H|[H|[H|H]]]; rewrite H;
      rewrite ?(eqb_empty_true EmptyString), ?orb_true_r by reflexivity; reflexivity.
  - intros req H. unfold inMemoryService.Delete. cbv zeta.
    destruct H as [H|[H|[H|H]]]; rewrite H;
      rewrite ?(eqb_empty_true EmptyString), ?orb_true_r by reflexivity; reflexivity.
  - intros req H. unfold inMemoryService.List. cbv zeta.
    destruct H as [H|[H|H]]; rewrite H;
      rewrite ?(eqb_empty_true EmptyString), ?orb_true_r by reflexivity; reflexivity.
  - intros req H. unfold inMemoryService.Versions. cbv zeta.
    destruct H as [H|[H|[H|H]]]; rewrite H;
      rewrite ?(eqb_empty_true EmptyString), ?orb_true_r by reflexivity; reflexivity.
Qed.

Lemma C9_invalid_argument_witness :
  inMemoryService.Save testStore
    (SaveRequest.mk "testapp" EmptyString "testsession" "file1" (Some "x") 0)
  = (Err ErrInvalidRequest, testStore) /\
  inMemoryService.Save testStore
    (SaveRequest.mk "testapp" "testuser" "testsession" "file1" None 0)
  = (Err ErrInvalidRequest, testStore) /\
  inMemoryService.Load testStore
    (LoadRequest.mk EmptyString "testuser" "testsession" "file1" 0)
  = (Err ErrInvalidRequest, testStore) /\
  inMemoryService.Delete testStore
    (DeleteRequest.mk "testapp" "testuser" "testsession" EmptyString 2)
  = (Some ErrInvalidRequest, testStore) /\
  inMemoryService.List testStore (ListRequest.mk "testapp" "testuser" EmptyString)
  = (Err ErrInvalidRequest, testStore) /\
  inMemoryService.Versions testStore
    (VersionsRequest.mk "testapp" "testuser" EmptyString "file1")
  = (Err ErrInvalidRequest, testStore).
Proof.
  destruct (C9_invalid_argument testStore) as (HS & HL & HD & HLi & HV & _).
  split; [apply HS; simpl; auto|].
  split; [apply HS; simpl; auto 6|].
  split; [apply HL; simpl; auto|].
  split; [apply HD; simpl; auto 6|].
  split; [apply HLi; simpl; auto|].
  apply HV; simpl; auto.
Defined.

(** ** [Versions] *)

Lemma StronglySorted_map {A B : Type} (R : B -> B -> Prop) (g : A -> B)
  (l : list A) :
  StronglySorted (fun x y => R (g x) (g y)) l -> StronglySorted R (map g l).
Proof.
  induction 1 as [|x l Hl IH Hx]; simpl; constructor; [exact IH|].
  apply Forall_forall. intros y Hy.
  apply list_elem_of_In, in_map_iff in Hy as (x' & <- & Hx').
  rewrite Forall_forall in Hx. apply Hx. now apply list_elem_of_In.
Qed.

Section versions_facts.
Context {Part : Type}.
Implicit Types (s : gmap string (option Part)) (val : option Part).

Lemma Versions_valid s a u se f :
  a <> EmptyString -> u <> EmptyString -> se <> EmptyString ->
  f <> EmptyString ->
  inMemoryService.Versions s (VersionsRequest.mk a u se f) =
  let versions :=
    map (fun kv : artifactKey * option Part => Version kv.1)
        (fileScan s a u se f) in
  if (length versions =? 0)%nat
  then (Err ErrNotExist, s)
  else (Ok (VersionsResponse.mk versions), s).
Proof.
  intros Ha Hu Hs Hf. unfold inMemoryService.Versions. simpl.
  rewrite !eqb_empty_false by assumption. reflexivity.
Qed.

Lemma elem_of_fileScan_versions s a u se f v :
  v ∈ map (fun kv : artifactKey * option Part => Version kv.1)
          (fileScan s a u se f)
  <-> 0 <= v /\ exists val, stored s (mkKey a u se f v) val.
Proof.
  rewrite list_elem_of_In, in_map_iff. split.
  - intros ([key val] & <- & Hin). apply list_elem_of_In in Hin.
    apply elem_of_fileScan in Hin as (Hk & H0 & Hst). simpl.
    split; [exact H0|]. exists val. now rewrite <- Hk.
  - intros (H0 & val & Hst). exists (mkKey a u se f v, val).
    split; [reflexivity|]. apply list_elem_of_In, elem_of_fileScan. auto.
Qed.

Lemma fileScan_versions_sorted s a u se f :
  StronglySorted (fun x y => y < x)
    (map (fun kv : artifactKey * option Part => Version kv.1)
         (fileScan s a u se f)).
Proof. apply StronglySorted_map, fileScan_sorted. Qed.

End versions_facts.

(** C8.  For a [Versions] request with non-empty names, on a store
    satisfying the data-model invariant: it fails with not-found
    exactly when no version of the file is stored; otherwise it
    returns the stored version numbers of the file, each once, in
    strictly descending order.  The store is unchanged. *)
Theorem C8_Versions_spec {Part : Type} (s : gmap string (option Part))
  (a u se f : string) :
  a <> EmptyString -> u <> EmptyString -> se <> EmptyString ->
  f <> EmptyString -> store_inv s ->
  let r := inMemoryService.Versions s (VersionsRequest.mk a u se f) in
  r.2 = s /\
  (r.1 = Err ErrNotExist <->
     forall v val, ~ stored s (mkKey a u se f v) val) /\
  (r.1 <> Err ErrNotExist ->
     exists l, r.1 = Ok (VersionsResponse.mk l) /\
       StronglySorted (fun x y => y < x) l /\
       forall v, v ∈ l <-> exists val, stored s (mkKey a u se f v) val).
Proof.
  intros Ha Hu Hs Hf Hinv. cbv zeta. rewrite Versions_valid by assumption.
  cbv zeta.
  assert (forall v val, stored s (mkKey a u se f v) val -> 0 <= v) as Hpos.
  { intros v val Hst. apply Hinv in Hst as (_ & _ & _ & _ & Hv).
    simpl in Hv. lia. }
  pose proof (elem_of_fileScan_versions s a u se f) as Hmem.
  pose proof (fileScan_versions_sorted s a u se f) as Hsorted.
  destruct (fileScan s a u se f) as [|[key val] rest] eqn:E; simpl.
  - split; [reflexivity|]. split; [|intros H; now exfalso].
    split; [|reflexivity]. intros _ v val Hst.
    apply (proj1 (fileScan_nil s a u se f) E v val); eauto.
  - split; [reflexivity|]. split.
    + split; [discriminate|]. intros Hnone. exfalso.
      apply fileScan_head in E as (Hk & _ & Hst & _).
      rewrite Hk in Hst. exact (Hnone _ _ Hst).
    + intros _. eexists. split; [reflexivity|]. split; [exact Hsorted|].
      intros v. rewrite Hmem. split.
      * intros [_ H]. exact H.
      * intros [val' Hst]. eauto.
Qed.

Lemma C8_Versions_spec_witness :
  let r := inMemoryService.Versions testStore
             (VersionsRequest.mk "testapp" "testuser" "testsession" "file1") in
  r.2 = testStore /\
  (r.1 = Err ErrNotExist <->
     forall v val, ~ stored testStore (testKey "file1" v) val).
Proof.
  destruct (C8_Versions_spec testStore "testapp" "testuser" "testsession"
              "file1") as (H1 & H2 & _);
    [discriminate | discriminate | discriminate | discriminate
    | apply store_inv_testStore |].
  split; [exact H1 | exact H2].
Defined.

(** ** [Delete] *)

Section delete_facts.
Context {Part : Type}.
Implicit Types (s : gmap string (option Part)) (val : option Part).

Lemma Delete_valid s a u se f ver :
  a <> EmptyString -> u <> EmptyString -> se <> EmptyString ->
  f <> EmptyString ->
  inMemoryService.Delete s (DeleteRequest.mk a u se f ver) =
  if negb (ver =? 0)
  then (None, base.delete (Encode (mkKey a u se f ver)) s)
  else (None,
        OMap.DeleteRange s (Encode (mkKey a u se f maxInt64))
                           (Encode (mkKey a u se f 0))).
Proof.
  intros Ha Hu Hs Hf. unfold inMemoryService.Delete. simpl.
  rewrite !eqb_empty_false by assumption. reflexivity.
Qed.

(** The range delete removes the versions from 0 of the file and
    nothing of any other file. *)
Lemma stored_DeleteRange_file s a u se f key val :
  stored (OMap.DeleteRange s (Encode (mkKey a u se f maxInt64))
                             (Encode (mkKey a u se f 0))) key val
  <-> stored s key val /\
      ~ (key = mkKey a u se f (Version key) /\ 0 <= Version key).
Proof.
  rewrite stored_DeleteRange. split.
  - intros [Hst Hr]. split; [exact Hst|]. intros H. apply Hr.
    destruct Hst as [Hv _]. now apply in_file_range.
  - intros [Hst Hr]. split; [exact Hst|]. intros H. apply Hr.
    destruct Hst as [Hv _]. now apply in_file_range in H.
Qed.

End delete_facts.

(** C6.  For a [Delete] request with non-empty names, no error is
    returned.  With a version set, only the record at that key goes:
    every other key of the map keeps its binding, and when the key is
    absent the store is unchanged.  With the version unset (0), every
    stored version of the file goes (the records of other files
    stay), after which [Load] at any version and [Versions] on the
    file fail with not-found. *)
Theorem C6_Delete_spec {Part : Type} (s : gmap string (option Part))
  (a u se f : string) (ver : Z) :
  a <> EmptyString -> u <> EmptyString -> se <> EmptyString ->
  f <> EmptyString -> int64 ver ->
  let r := inMemoryService.Delete s (DeleteRequest.mk a u se f ver) in
  r.1 = None /\
  (ver <> 0 ->
     (forall val, ~ stored r.2 (mkKey a u se f ver) val) /\
     (forall k, k <> Encode (mkKey a u se f ver) -> r.2 !! k = s !! k) /\
     (forall key val, key <> mkKey a u se f ver ->
        (stored r.2 key val <-> stored s key val)) /\
     ((forall val, ~ stored s (mkKey a u se f ver) val) -> r.2 = s)) /\
  (ver = 0 ->
     (forall v val, 0 <= v -> ~ stored r.2 (mkKey a u se f v) val) /\
     (store_inv s -> forall v val, ~ stored r.2 (mkKey a u se f v) val) /\
     (forall key val,
        (AppName key, UserID key, SessionID key, FileName key)
          <> (a, u, se, f) ->
        (stored r.2 key val <-> stored s key val)) /\
     (forall v, int64 v ->
        (inMemoryService.Load r.2 (LoadRequest.mk a u se f v)).1
        = Err ErrNotExist) /\
     (inMemoryService.Versions r.2 (VersionsRequest.mk a u se f)).1
     = Err ErrNotExist).
Proof.
  intros Ha Hu Hs Hf Hver. cbv zeta. rewrite Delete_valid by assumption.
  split; [now destruct (negb _)|]. split.
  - intros Hne.
    replace (ver =? 0) with false by (symmetry; now apply Z.eqb_neq).
    cbn [negb snd]. split; [|split; [|split]].
    + intros val [_ H]. rewrite lookup_delete_eq in H. discriminate.
    + intros k Hk. now apply lookup_delete_ne.
    + intros key val Hk. unfold stored. split; intros [Hv H]; split; auto.
      * apply lookup_delete_Some in H as [_ H]. exact H.
      * rewrite lookup_delete_ne; [exact H|].
        intros E. apply Hk. symmetry. now apply Encode_inj.
    + intros Hnone. apply delete_id.
      destruct (s !! Encode (mkKey a u se f ver)) as [val|] eqn:E;
        [|reflexivity].
      exfalso. apply (Hnone val). split; assumption.
  - intros ->. cbn [Z.eqb negb snd].
    set (s' := OMap.DeleteRange s _ _).
    assert (forall v val, 0 <= v -> ~ stored s' (mkKey a u se f v) val)
      as Hgone.
    { intros v val Hv Hst. apply stored_DeleteRange_file in Hst as [_ Hn].
      apply Hn. simpl. auto. }
    split; [exact Hgone|]. split; [|split; [|split]].
    + intros Hinv v val Hst. pose proof Hst as Hst'.
      apply stored_DeleteRange_file in Hst' as [Hst' _].
      apply Hinv in Hst' as (_ & _ & _ & _ & Hv). simpl in Hv.
      apply (Hgone v val); [lia | exact Hst].
    + intros key val Hk. unfold s'. rewrite stored_DeleteRange_file.
      split; [tauto|]. intros Hst. split; [exact Hst|].
      intros [E _]. apply Hk. rewrite E. reflexivity.
    + intros v Hv. rewrite Load_valid by assumption.
      destruct (0 <? v) eqn:Ev.
      * apply Z.ltb_lt in Ev.
        destruct (s' !! Encode (mkKey a u se f v)) as [val|] eqn:E;
          [|reflexivity].
        exfalso. apply (Hgone v val); [lia | split; assumption].
      * destruct (find_cases s' a u se f) as
          [(v0 & val & _ & Hv0 & Hst & _)|[-> _]]; [|reflexivity].
        exfalso. apply (Hgone v0 val); [lia | exact Hst].
    + rewrite Versions_valid by assumption. cbv zeta.
      rewrite (proj2 (fileScan_nil s' a u se f) Hgone). reflexivity.
Qed.

Lemma C6_Delete_spec_witness :
  let r := inMemoryService.Delete testStore
             (DeleteRequest.mk "testapp" "testuser" "testsession" "file1" 0) in
  r.1 = None /\
  (forall v val, ~ stored r.2 (testKey "file1" v) val) /\
  (inMemoryService.Versions r.2
     (VersionsRequest.mk "testapp" "testuser" "testsession" "file1")).1
  = Err ErrNotExist.
Proof.
  destruct (C6_Delete_spec testStore "testapp" "testuser" "testsession"
              "file1" 0) as (H1 & _ & H3);
    [discriminate | discriminate | discriminate | discriminate
    | unfold int64, minInt64, maxInt64; lia |].
  destruct (H3 eq_refl) as (_ & Hall & _ & _ & Hvers).
  split; [exact H1|]. split; [|exact Hvers].
  apply Hall, store_inv_testStore.
Defined.

(** ** [List] *)

Section list_facts.
Context {Part : Type}.
Implicit Types (s : gmap string (option Part)) (val : option Part).

Lemma List_valid s a u se :
  a <> EmptyString -> u <> EmptyString -> se <> EmptyString ->
  inMemoryService.List s (ListRequest.mk a u se) =
  (Ok (ListResponse.mk
         (elements
            (foldl (fun (files : gset string)
                        (kv : artifactKey * option Part) =>
                      if negb (String.eqb (SessionID kv.1) se)
                      then files
                      else {[ FileName kv.1 ]} ∪ files)
                   ∅
                   (inMemoryService.scan s
                      (Encode (mkKey a u se EmptyString 0))
                      (Encode (mkKey a u (se ++ String NUL EmptyString) EmptyString 0)))))),
   s).
Proof.
  intros Ha Hu Hs. unfold inMemoryService.List. simpl.
  rewrite !eqb_empty_false by assumption. reflexivity.
Qed.

(** What the loop of [List] collects. *)
Lemma elem_of_foldl_files (se : string)
  (l : list (artifactKey * option Part)) :
  forall (acc : gset string) (f : string),
    f ∈ foldl (fun (files : gset string) (kv : artifactKey * option Part) =>
                 if negb (String.eqb (SessionID kv.1) se)
                 then files
                 else {[ FileName kv.1 ]} ∪ files) acc l
    <-> f ∈ acc \/
        exists kv, kv ∈ l /\ SessionID kv.1 = se /\ FileName kv.1 = f.
Proof.
  induction l as [|kv l IH]; intros acc f; simpl.
  - split; [auto|]. intros [H|(kv & H & _)]; [exact H|].
    now apply elem_of_nil in H.
  - rewrite IH. destruct (String.eqb (SessionID kv.1) se) eqn:E; simpl.
    + apply String.eqb_eq in E. rewrite elem_of_union, elem_of_singleton.
      split.
      * intros [[->|H]|(kv' & Hin & H)]; eauto.
        -- right. exists kv. split; [apply list_elem_of_here | auto].
        -- right. exists kv'. split; [now apply list_elem_of_further | auto].
      * intros [H|(kv' & Hin & Hs & Hf)]; [auto|].
        apply elem_of_cons in Hin as [->|Hin]; [auto|].
        right. eauto.
    + apply String.eqb_neq in E. split.
      * intros [H|(kv' & Hin & H)]; [auto|].
        right. exists kv'. split; [now apply list_elem_of_further | auto].
      * intros [H|(kv' & Hin & Hs & Hf)]; [auto|].
        apply elem_of_cons in Hin as [->|Hin]; [congruence|].
        right. eauto.
Qed.

(** The names [List] returns, on any store. *)
Lemma elem_of_List_files s a u se f :
  f ∈ foldl (fun (files : gset string) (kv : artifactKey * option Part) =>
               if negb (String.eqb (SessionID kv.1) se)
               then files
               else {[ FileName kv.1 ]} ∪ files)
            ∅
            (inMemoryService.scan s
               (Encode (mkKey a u se EmptyString 0))
               (Encode (mkKey a u (se ++ String NUL EmptyString) EmptyString 0)))
  <-> exists v val, stored s (mkKey a u se f v) val /\ (f <> EmptyString \/
  v <= 0).
Proof.
  rewrite elem_of_foldl_files. split.
  - intros [H|([key val] & Hin & Hs & Hf)]; [now apply elem_of_empty in H|].
    simpl in *. apply elem_of_scan in Hin as [Hst Hr].
    pose proof Hst as [Hv _].
    destruct (proj1 (in_session_range a u se key Hv) (conj Hr Hs))
      as (Ea & Eu & _ & Hfv).
    exists (Version key), val. destruct key as [a' u' s' f' v].
    simpl in *. subst. auto.
  - intros (v & val & Hst & Hfv). right.
    exists (mkKey a u se f v, val). simpl. split; [|auto].
    apply elem_of_scan. split; [exact Hst|].
    pose proof Hst as [Hv _].
    apply (in_session_range a u se (mkKey a u se f v) Hv). simpl. auto.
Qed.

End list_facts.

(** C7.  For a [List] request with non-empty names, on a store
    satisfying the data-model invariant: it succeeds, leaves the store
    unchanged, and returns each file name once; the names returned are
    exactly those with at least one stored version under that very
    (app, user, session); a session without entries gives the empty
    list. *)
Theorem C7_List_spec {Part : Type} (s : gmap string (option Part))
  (a u se : string) :
  a <> EmptyString -> u <> EmptyString -> se <> EmptyString -> store_inv s ->
  exists l,
    inMemoryService.List s (ListRequest.mk a u se)
    = (Ok (ListResponse.mk l), s) /\
    NoDup l /\
    (forall f, f ∈ l <-> exists v val, stored s (mkKey a u se f v) val) /\
    ((forall f v val, ~ stored s (mkKey a u se f v) val) -> l = []).
Proof.
  intros Ha Hu Hs Hinv. rewrite List_valid by assumption.
  eexists. split; [reflexivity|]. split; [apply NoDup_elements|].
  assert (forall f,
    f ∈ elements
          (foldl (fun (files : gset string)
                      (kv : artifactKey * option Part) =>
                    if negb (String.eqb (SessionID kv.1) se)
                    then files
                    else {[ FileName kv.1 ]} ∪ files)
                 ∅
                 (inMemoryService.scan s
                    (Encode (mkKey a u se EmptyString 0))
                    (Encode (mkKey a u (se ++ String NUL EmptyString) EmptyString 0))))
    <-> exists v val, stored s (mkKey a u se f v) val) as Hmem.
  { intros f. rewrite elem_of_elements, elem_of_List_files. split.
    - intros (v & val & Hst & _). eauto.
    - intros (v & val & Hst). exists v, val. split; [exact Hst|].
      left. apply Hinv in Hst as (_ & _ & _ & Hf & _). exact Hf. }
  split; [exact Hmem|].
  intros Hnone. destruct (elements _) as [|f l] eqn:E; [reflexivity|].
  exfalso. destruct (proj1 (Hmem f) (list_elem_of_here _ _)) as (v & val & Hst).
  exact (Hnone _ _ _ Hst).
Qed.

Lemma C7_List_spec_witness :
  exists l,
    inMemoryService.List testStore
      (ListRequest.mk "testapp" "testuser" "testsession")
    = (Ok (ListResponse.mk l), testStore) /\
    NoDup l /\
    (forall f, f ∈ l <->
       exists v val, stored testStore (testKey f v) val).
Proof.
  destruct (C7_List_spec testStore "testapp" "testuser" "testsession")
    as (l & H1 & H2 & H3 & _);
    [discriminate | discriminate | discriminate
    | apply store_inv_testStore |].
  exists l. split; [exact H1|]. split; [exact H2 | exact H3].
Defined.

(** The test scenario, run on the model. *)
Example test_scenario :
  (inMemoryService.List testStore
     (ListRequest.mk "testapp" "testuser" "testsession")).1
  = Ok (ListResponse.mk ["file1"; "file2"]) /\
  (inMemoryService.Versions testStore
     (VersionsRequest.mk "testapp" "testuser" "testsession" "file1")).1
  = Ok (VersionsResponse.mk [3; 2; 1]) /\
  (inMemoryService.Load testStore
     (LoadRequest.mk "testapp" "testuser" "testsession" "file1" 0)).1
  = Ok (LoadResponse.mk (Some "file v3")) /\
  (inMemoryService.Load
     (inMemoryService.Delete testStore
        (DeleteRequest.mk "testapp" "testuser" "testsession" "file1" 3)).2
     (LoadRequest.mk "testapp" "testuser" "testsession" "file1" 0)).1
  = Ok (LoadResponse.mk (Some "file v2")).
Proof. vm_compute. auto. Qed.

(** * Further properties of the service

    ** Scans are determined by the records they range over *)

(** Two lists sorted by a strict order with the same members are
    equal. *)
Lemma StronglySorted_strict_ext {A : Type} (R : A -> A -> Prop)
  (l1 : list A) :
  (forall x y, R x y -> R y x -> False) ->
  forall l2,
    StronglySorted R l1 -> StronglySorted R l2 ->
    (forall x, x ∈ l1 <-> x ∈ l2) -> l1 = l2.
Proof.
  intros Hasym. induction l1 as [|x l1 IH]; intros [|y l2] H1 H2 Hmem.
  - reflexivity.
  - exfalso. apply (not_elem_of_nil y), Hmem, list_elem_of_here.
  - exfalso. apply (not_elem_of_nil x), Hmem, list_elem_of_here.
  - apply StronglySorted_inv in H1 as [H1 Hx].
    apply StronglySorted_inv in H2 as [H2 Hy].
    rewrite Forall_forall in Hx, Hy.
    assert (x = y) as ->.
    { destruct (proj1 (elem_of_cons _ _ _)
                  (proj1 (Hmem x) (list_elem_of_here _ _))) as [E|Hin];
        [exact E|].
      destruct (proj1 (elem_of_cons _ _ _)
                  (proj2 (Hmem y) (list_elem_of_here _ _))) as [E|Hin'];
        [now symmetry|].
      exfalso. exact (Hasym _ _ (Hx _ Hin') (Hy _ Hin)). }
    f_equal. apply IH; [exact H1 | exact H2 |].
    intros z. split; intros Hz.
    + destruct (proj1 (elem_of_cons _ _ _)
                  (proj1 (Hmem z) (list_elem_of_further _ _ _ Hz)))
        as [->|Hin]; [|exact Hin].
      exfalso. exact (Hasym _ _ (Hx _ Hz) (Hx _ Hz)).
    + destruct (proj1 (elem_of_cons _ _ _)
                  (proj2 (Hmem z) (list_elem_of_further _ _ _ Hz)))
        as [->|Hin]; [|exact Hin].
      exfalso. exact (Hasym _ _ (Hy _ Hz) (Hy _ Hz)).
Qed.

Lemma int64_wrap64 (z : Z) : int64 (wrap64 z).
Proof.
  unfold int64, wrap64, minInt64, maxInt64, two64.
  pose proof (Z.mod_pos_bound (z - -9223372036854775808)
                18446744073709551616 ltac:(lia)).
  lia.
Qed.

Section scan_ext.
Context {Part : Type}.
Implicit Types (s : gmap string (option Part)) (val : option Part).

Lemma slt_asym (x y : string) : slt x y -> slt y x -> False.
Proof. intros H1 H2. exact (slt_irrefl _ (slt_trans _ _ _ H1 H2)). Qed.

(** A scan depends only on the decodable records within its bounds. *)
Lemma scan_ext s s' lo hi :
  (forall key val, OMap.in_range lo hi (Encode key) ->
     (stored s key val <-> stored s' key val)) ->
  inMemoryService.scan s lo hi = inMemoryService.scan s' lo hi.
Proof.
  intros H.
  apply (StronglySorted_strict_ext
           (fun x y : artifactKey * option Part =>
              slt (Encode x.1) (Encode y.1)));
    [intros x y; apply slt_asym | apply scan_sorted | apply scan_sorted |].
  intros [key val]. rewrite !elem_of_scan. split.
  - intros [Hst Hr]. split; [now apply H | exact Hr].
  - intros [Hst Hr]. split; [now apply H | exact Hr].
Qed.

Lemma fileScan_ext s s' a u se f :
  (forall v val, 0 <= v ->
     (stored s (mkKey a u se f v) val <-> stored s' (mkKey a u se f v) val)) ->
  fileScan s a u se f = fileScan s' a u se f.
Proof.
  intros H. apply scan_ext. intros key val Hr. split; intros Hst.
  - pose proof Hst as [Hv _].
    apply in_file_range in Hr as [Hk H0]; [|exact Hv].
    rewrite Hk in Hst |- *. now apply H.
  - pose proof Hst as [Hv _].
    apply in_file_range in Hr as [Hk H0]; [|exact Hv].
    rewrite Hk in Hst |- *. now apply H.
Qed.

Lemma lookup_ext_stored s s' key :
  int64 (Version key) ->
  (forall val, stored s key val <-> stored s' key val) ->
  s !! Encode key = s' !! Encode key.
Proof.
  intros Hv H. unfold stored in H.
  destruct (s !! Encode key) as [val|] eqn:E.
  - symmetry. apply H. auto.
  - destruct (s' !! Encode key) as [val'|] eqn:E'; [|reflexivity].
    destruct (proj2 (H val') (conj Hv eq_refl)) as [_ ?]. discriminate.
Qed.

(** Every file has a latest version. *)
Lemma latest_exists s a u se f :
  exists n, 0 <= n <= maxInt64 /\ latest s a u se f n.
Proof.
  destruct (find_cases s a u se f) as
    [(v & val & _ & Hv & Hst & Hmax)|[_ Hnone]].
  - exists v. split; [lia|]. right. split; [lia|]. split; [eauto|].
    intros v' val' Hlt Hst'.
    assert (v' <= v) by (apply (Hmax v' val'); [lia | exact Hst']). lia.
  - exists 0. split; [unfold maxInt64; lia|]. left. auto.
Qed.

End scan_ext.

Section reads_ext.
Context {Part : Type}.
Implicit Types (s : gmap string (option Part)) (val : option Part).

(** What [find], [Load] and [Versions] answer for a file depends only
    on the records of that file. *)
Lemma file_reads_ext s s' a u se f :
  (forall v val, 0 <= v ->
     (stored s (mkKey a u se f v) val <->
      stored s' (mkKey a u se f v) val)) ->
  inMemoryService.find s a u se f = inMemoryService.find s' a u se f /\
  (forall v, int64 v ->
     (inMemoryService.Load s (LoadRequest.mk a u se f v)).1 =
     (inMemoryService.Load s' (LoadRequest.mk a u se f v)).1) /\
  (inMemoryService.Versions s (VersionsRequest.mk a u se f)).1 =
  (inMemoryService.Versions s' (VersionsRequest.mk a u se f)).1.
Proof.
  intros H.
  assert (fileScan s a u se f = fileScan s' a u se f) as E
    by (apply fileScan_ext; exact H).
  assert (inMemoryService.find s a u se f = inMemoryService.find s' a u se f)
    as Ef by (now rewrite !find_unfold, E).
  split; [exact Ef|]. split.
  - intros v Hv. unfold inMemoryService.Load. cbv zeta. simpl.
    destruct (_ || _); [reflexivity|].
    destruct (0 <? v) eqn:E0.
    + apply Z.ltb_lt in E0.
      unfold inMemoryService.get, OMap.Get. cbv zeta.
      rewrite (lookup_ext_stored s s' (mkKey a u se f v) Hv)
        by (intros val; apply H; simpl; lia).
      now destruct (s' !! _).
    + rewrite Ef. now destruct (inMemoryService.find s' a u se f) as [[? ?] []].
  - unfold inMemoryService.Versions. cbv zeta. simpl.
    destruct (_ || _); [reflexivity|].
    unfold fileScan in E. rewrite E.
    now destruct (length _ =? 0)%nat.
Qed.

End reads_ext.

(** X1.  Two stores that hold the same decodable records cannot be
    told apart by [Load], [Versions], [List] or the version [Save]
    assigns: keys that fail to decode are skipped by every scan.  For
    [List], whose order of names is unspecified, this is stated on the
    error and on the names reported. *)
Theorem reads_only_see_decodable_records {Part : Type}
  (s s' : gmap string (option Part)) :
  (forall key val, stored s key val <-> stored s' key val) ->
  (forall req, int64 (LoadRequest.Version req) ->
     (inMemoryService.Load s req).1 = (inMemoryService.Load s' req).1) /\
  (forall req,
     (inMemoryService.Versions s req).1 =
     (inMemoryService.Versions s' req).1) /\
  (forall req,
     (forall e, (inMemoryService.List s req).1 = Err e <->
                (inMemoryService.List s' req).1 = Err e) /\
     (forall f, f ∈ fileNames (inMemoryService.List s req).1 <->
                f ∈ fileNames (inMemoryService.List s' req).1)) /\
  (forall req,
     (inMemoryService.Save s req).1 = (inMemoryService.Save s' req).1).
Proof.
  intros H.
  assert (forall lo hi,
            inMemoryService.scan s lo hi = inMemoryService.scan s' lo hi)
    as Escan by (intros lo hi; apply scan_ext; intros key val _; apply H).
  split; [|split; [|split]].
  - intros [a u se f v] Hv. simpl in Hv.
    apply (file_reads_ext s s' a u se f); [|exact Hv].
    intros v' val _. apply H.
  - intros [a u se f].
    apply (file_reads_ext s s' a u se f). intros v' val _. apply H.
  - intros req.
    assert ((inMemoryService.List s req).1 = (inMemoryService.List s' req).1)
      as E.
    { unfold inMemoryService.List. cbv zeta.
      destruct (_ || _); [reflexivity|]. now rewrite Escan. }
    rewrite E. split; reflexivity.
  - intros req. unfold inMemoryService.Save, inMemoryService.find. cbv zeta.
    destruct (_ || _); [reflexivity|]. rewrite Escan.
    now destruct (inMemoryService.scan s' _ _) as [|[? ?] ?].
Qed.


Lemma reads_only_see_decodable_records_witness :
  let s' : gmap string (option string) := <["junk" := Some "x"]> testStore in
  (inMemoryService.Versions testStore
     (VersionsRequest.mk "testapp" "testuser" "testsession" "file1")).1 =
  (inMemoryService.Versions s'
     (VersionsRequest.mk "testapp" "testuser" "testsession" "file1")).1.
Proof.
  refine (proj1 (proj2 (reads_only_see_decodable_records testStore
                          (<["junk" := Some "x"]> testStore) _)) _).
  intros key val.
  assert (int64 (Version key) -> "junk" <> Encode key) as Hne.
  { intros Hv E. pose proof (Decode_Encode key Hv) as D.
    rewrite <- E in D. discriminate D. }
  unfold stored. split; intros [Hv H]; (split; [exact Hv|]).
  - rewrite lookup_insert_ne by (apply Hne, Hv). exact H.
  - rewrite lookup_insert_ne in H by (apply Hne, Hv). exact H.
Defined.

(** ** [Save] followed by reads *)

Section save_reads.
Context {Part : Type}.
Implicit Types (s : gmap string (option Part)) (val : option Part).

Lemma versionList_Versions s a u se f :
  a <> EmptyString -> u <> EmptyString -> se <> EmptyString ->
  f <> EmptyString ->
  versionList (inMemoryService.Versions s (VersionsRequest.mk a u se f)).1 =
  map (fun kv : artifactKey * option Part => Version kv.1)
      (fileScan s a u se f).
Proof.
  intros Ha Hu Hs Hf. rewrite Versions_valid by assumption. cbv zeta.
  now destruct (fileScan s a u se f).
Qed.

Lemma gt_asym (x y : artifactKey * option Part) :
  Version y.1 < Version x.1 -> Version x.1 < Version y.1 -> False.
Proof. lia. Qed.

(** A record above every version of the file becomes the head of
    its scan. *)
Lemma fileScan_insert_top s a u se f nv (p : Part) :
  0 <= nv <= maxInt64 ->
  (forall v val, 0 <= v -> stored s (mkKey a u se f v) val -> v < nv) ->
  fileScan (<[Encode (mkKey a u se f nv) := Some p]> s) a u se f =
  (mkKey a u se f nv, Some p) :: fileScan s a u se f.
Proof.
  intros Hnv Htop.
  assert (int64 nv) as Hi by (unfold int64, minInt64, maxInt64 in *; lia).
  apply (StronglySorted_strict_ext
           (fun x y : artifactKey * option Part =>
              Version y.1 < Version x.1));
    [intros x y; apply gt_asym | apply fileScan_sorted | |].
  - constructor; [apply fileScan_sorted|].
    apply Forall_forall. intros [key val] Hin.
    apply elem_of_fileScan in Hin as (Hk & H0 & Hst). simpl.
    rewrite Hk in Hst. eauto.
  - intros [key val]. rewrite elem_of_cons, !elem_of_fileScan.
    rewrite (stored_insert s (mkKey a u se f nv) key p val Hi). split.
    + intros (Hk & H0 & [[-> ->]|[Hne Hst]]); auto.
    + intros [[= -> ->]|(Hk & H0 & Hst)].
      * simpl. split; [reflexivity|]. split; [lia|]. auto.
      * split; [exact Hk|]. split; [exact H0|]. right. split; [|exact Hst].
        intros ->. simpl in *.
        specialize (Htop nv val ltac:(lia) Hst). lia.
Qed.

(** A record at a negative version never shows in the scan. *)
Lemma fileScan_insert_negative s a u se f nv (p : Part) :
  int64 nv -> nv < 0 ->
  fileScan (<[Encode (mkKey a u se f nv) := Some p]> s) a u se f =
  fileScan s a u se f.
Proof.
  intros Hi Hneg. apply fileScan_ext. intros v val H0.
  rewrite (stored_insert s (mkKey a u se f nv) _ p val Hi). split.
  - intros [[[= ->] _]|[_ Hst]]; [lia | exact Hst].
  - intros Hst. right. split; [|exact Hst]. intros [= ->]. lia.
Qed.

End save_reads.

(** X2.  As long as version [maxInt64] of the file is not stored, a
    valid [Save] returns a version from 1 that is above every version
    the file had, keeps every record that was stored, and is read
    back: [Load] without a version and [Load] at the returned version
    both give the saved payload, and [Versions] reports the new
    version in front of the old ones. *)
Theorem Save_then_reads {Part : Type} (s : gmap string (option Part))
  (a u se f : string) (p : Part) (ver : Z) :
  a <> EmptyString -> u <> EmptyString -> se <> EmptyString ->
  f <> EmptyString ->
  (forall val, ~ stored s (mkKey a u se f maxInt64) val) ->
  let r := inMemoryService.Save s (SaveRequest.mk a u se f (Some p) ver) in
  exists v,
    r.1 = Ok (SaveResponse.mk v) /\ 1 <= v <= maxInt64 /\
    (forall v' val, 0 <= v' -> stored s (mkKey a u se f v') val -> v' < v) /\
    (forall key val, stored s key val -> stored r.2 key val) /\
    (inMemoryService.Load r.2 (LoadRequest.mk a u se f 0)).1
    = Ok (LoadResponse.mk (Some p)) /\
    (inMemoryService.Load r.2 (LoadRequest.mk a u se f v)).1
    = Ok (LoadResponse.mk (Some p)) /\
    versionList (inMemoryService.Versions r.2
                   (VersionsRequest.mk a u se f)).1
    = v :: versionList (inMemoryService.Versions s
                          (VersionsRequest.mk a u se f)).1.
Proof.
  intros Ha Hu Hs Hf Hmax. cbv zeta.
  destruct (latest_exists s a u se f) as (n & Hn & Hl).
  assert (n < maxInt64) as Hlt.
  { destruct (Z.eq_dec n maxInt64) as [->|]; [|lia]. exfalso.
    destruct Hl as [[E _]|(_ & [val Hst] & _)];
      [discriminate E | exact (Hmax _ Hst)]. }
  assert (forall v' val, 0 <= v' -> stored s (mkKey a u se f v') val ->
                         v' < n + 1) as Htop.
  { intros v' val H0 Hst.
    destruct Hl as [[_ Hl]|(_ & _ & Hl)]; [now exfalso; apply (Hl v' val)|].
    destruct (Z_lt_ge_dec n v') as [Hgt|]; [|lia].
    exfalso. exact (Hl _ _ Hgt Hst). }
  rewrite (Save_latest s a u se f p ver n) by assumption. cbn [fst snd].
  exists (n + 1). split; [reflexivity|]. split; [lia|].
  split; [exact Htop|]. split; [|split; [|split]].
  - intros key val Hst. now apply stored_Save_next.
  - rewrite Load_valid by assumption. cbn [Z.ltb Z.compare].
    rewrite find_unfold, fileScan_insert_top by (auto; lia). reflexivity.
  - rewrite Load_valid by assumption.
    replace (0 <? n + 1) with true by (symmetry; apply Z.ltb_lt; lia).
    now rewrite lookup_insert_eq.
  - rewrite !versionList_Versions by assumption.
    rewrite fileScan_insert_top by (auto; lia). reflexivity.
Qed.

Lemma Save_then_reads_witness :
  let r := inMemoryService.Save testStore
             (SaveRequest.mk "testapp" "testuser" "testsession" "file1"
                             (Some "file v4") 0) in
  exists v,
    r.1 = Ok (SaveResponse.mk v) /\ 1 <= v <= maxInt64 /\
    (inMemoryService.Load r.2
       (LoadRequest.mk "testapp" "testuser" "testsession" "file1" 0)).1
    = Ok (LoadResponse.mk (Some "file v4")).
Proof.
  destruct (Save_then_reads testStore "testapp" "testuser" "testsession"
              "file1" "file v4" 0)
    as (v & H1 & H2 & _ & _ & H5 & _);
    [discriminate | discriminate | discriminate | discriminate | |].
  - intros val [_ H]. vm_compute in H. discriminate H.
  - exists v. auto.
Defined.

(** X3.  When version [maxInt64] of the file is stored, the
    [internalVer + 1] of [Save] wraps: the call succeeds with version
    [minInt64] and the payload is stored under that negative version,
    where neither [Load] without a version nor [Versions] sees it;
    both keep answering as before the save. *)
Theorem Save_at_maxInt64_wraps {Part : Type} (s : gmap string (option Part))
  (a u se f : string) (p : Part) (ver : Z) (old : option Part) :
  a <> EmptyString -> u <> EmptyString -> se <> EmptyString ->
  f <> EmptyString ->
  stored s (mkKey a u se f maxInt64) old ->
  let r := inMemoryService.Save s (SaveRequest.mk a u se f (Some p) ver) in
  r.1 = Ok (SaveResponse.mk minInt64) /\
  stored r.2 (mkKey a u se f minInt64) (Some p) /\
  (inMemoryService.Load r.2 (LoadRequest.mk a u se f 0)).1
  = Ok (LoadResponse.mk old) /\
  (inMemoryService.Versions r.2 (VersionsRequest.mk a u se f)).1
  = (inMemoryService.Versions s (VersionsRequest.mk a u se f)).1.
Proof.
  intros Ha Hu Hs Hf Hold. cbv zeta.
  assert (inMemoryService.find s a u se f = (maxInt64, old, true)) as Efind.
  { destruct (find_cases s a u se f) as
      [(v & val & -> & Hv & Hst & Hmax)|[_ Hnone]].
    - assert (v = maxInt64) as ->.
      { apply Z.le_antisymm; [lia|].
        apply (Hmax maxInt64 old); [unfold maxInt64; lia | exact Hold]. }
      now rewrite (stored_functional _ _ _ _ Hst Hold).
    - exfalso. apply (Hnone maxInt64 old); [unfold maxInt64; lia|exact Hold]. }
  assert (int64 minInt64) as Hi by (unfold int64, minInt64, maxInt64; lia).
  rewrite Save_valid by assumption. cbv zeta. rewrite Efind.
  change (wrap64 (maxInt64 + 1)) with minInt64. cbn [fst snd].
  assert (fileScan (<[Encode (mkKey a u se f minInt64) := Some p]> s)
                   a u se f = fileScan s a u se f) as E
    by (apply fileScan_insert_negative; [exact Hi | unfold minInt64; lia]).
  split; [reflexivity|]. split; [|split].
  - apply stored_insert; auto.
  - rewrite Load_valid by assumption. cbn [Z.ltb Z.compare].
    rewrite find_unfold, E, <- find_unfold, Efind. reflexivity.
  - rewrite !Versions_valid by assumption. cbv zeta. rewrite E.
    now destruct (length _ =? 0)%nat.
Qed.

Lemma Save_at_maxInt64_wraps_witness :
  let s : gmap string (option string) :=
    <[Encode (testKey "file1" maxInt64) := Some "last"]> ∅ in
  (inMemoryService.Save s
     (SaveRequest.mk "testapp" "testuser" "testsession" "file1"
                     (Some "next") 0)).1
  = Ok (SaveResponse.mk minInt64).
Proof.
  refine (proj1 (Save_at_maxInt64_wraps
                   (<[Encode (testKey "file1" maxInt64) := Some "last"]> ∅)
                   "testapp" "testuser" "testsession" "file1" "next" 0
                   (Some "last") _ _ _ _ _));
    [discriminate | discriminate | discriminate | discriminate |].
  split; [unfold int64, minInt64, maxInt64; simpl; lia|].
  apply lookup_insert_eq.
Defined.

(** X4.  After a valid [Save] to a file, [List] on its session
    reports that file name together with exactly the names it
    reported before. *)
Theorem Save_then_List {Part : Type} (s : gmap string (option Part))
  (a u se f : string) (p : Part) (ver : Z) :
  a <> EmptyString -> u <> EmptyString -> se <> EmptyString ->
  f <> EmptyString ->
  let r := inMemoryService.Save s (SaveRequest.mk a u se f (Some p) ver) in
  forall f',
    f' ∈ fileNames (inMemoryService.List r.2 (ListRequest.mk a u se)).1 <->
    f' = f \/
    f' ∈ fileNames (inMemoryService.List s (ListRequest.mk a u se)).1.
Proof.
  intros Ha Hu Hs Hf. cbv zeta. rewrite Save_valid by assumption. cbv zeta.
  set (nv := match inMemoryService.find s a u se f with
             | (internalVer, _, true) => wrap64 (internalVer + 1)
             | (_, _, false) => 1
             end).
  assert (int64 nv) as Hi.
  { unfold nv. destruct (inMemoryService.find s a u se f) as [[v ?] []];
      [apply int64_wrap64 | unfold int64, minInt64, maxInt64; lia]. }
  cbn [snd]. intros f'. rewrite !List_valid by assumption.
  cbn [fst fileNames ListResponse.FileNames].
  rewrite !elem_of_elements, !elem_of_List_files. split.
  - intros (v & val & Hst & Hc).
    apply (stored_insert s (mkKey a u se f nv) _ p val Hi) in Hst
      as [[[= -> _] _]|[_ Hst]]; [now left | right; eauto].
  - intros [->|(v & val & Hst & Hc)].
    + exists nv, (Some p). split; [|now left].
      apply stored_insert; auto.
    + destruct (decide (f' = f)) as [->|E].
      * exists nv, (Some p). split; [|now left].
        apply stored_insert; auto.
      * exists v, val. split; [|exact Hc]. apply stored_insert; [exact Hi|].
        right. split; [|exact Hst]. intros [= E']. now apply E.
Qed.

Lemma Save_then_List_witness :
  let r := inMemoryService.Save testStore
             (SaveRequest.mk "testapp" "testuser" "testsession" "file3"
                             (Some "x") 0) in
  "file3" ∈ fileNames
    (inMemoryService.List r.2
       (ListRequest.mk "testapp" "testuser" "testsession")).1.
Proof.
  apply (Save_then_List testStore "testapp" "testuser" "testsession"
           "file3" "x" 0);
    [discriminate | discriminate | discriminate | discriminate |].
  left. reflexivity.
Defined.

(** ** Writes and the other files *)

Section frame.
Context {Part : Type}.
Implicit Types (s : gmap string (option Part)) (val : option Part).

Lemma stored_delete_iff s key' key val :
  int64 (Version key') ->
  stored (base.delete (Encode key') s) key val <->
  stored s key val /\ key <> key'.
Proof.
  intros Hv'. unfold stored. rewrite lookup_delete_Some. split.
  - intros (Hv & Hne & H). split; [auto|]. intros ->. now apply Hne.
  - intros [[Hv H] Hne]. split; [exact Hv|]. split; [|exact H].
    intros E. apply Hne. symmetry. now apply Encode_inj.
Qed.

(** What a [Save] leaves of the store: nothing changed, or one record
    added under the names of the request. *)
Lemma Save_store s (req : SaveRequest.t Part) :
  (inMemoryService.Save s req).2 = s \/
  exists nv p,
    int64 nv /\
    SaveRequest.FileName req <> EmptyString /\
    (inMemoryService.Save s req).2 =
    <[Encode (mkKey (SaveRequest.AppName req) (SaveRequest.UserID req)
                    (SaveRequest.SessionID req) (SaveRequest.FileName req)
                    nv) := Some p]> s.
Proof.
  destruct req as [a u se f [p|] ver]; unfold inMemoryService.Save;
    cbv zeta; cbn [SaveRequest.AppName SaveRequest.UserID
                   SaveRequest.SessionID SaveRequest.FileName
                   SaveRequest.Part_ inMemoryService.isNil].
  - destruct (String.eqb a EmptyString); [now left|].
    destruct (String.eqb u EmptyString); [now left|].
    destruct (String.eqb se EmptyString); [now left|].
    destruct (String.eqb f EmptyString) eqn:Ef; [now left|].
    cbn [orb snd]. right.
    eexists _, p. split; [|split; [|reflexivity]].
    + destruct (inMemoryService.find s a u se f) as [[v ?] []];
        [apply int64_wrap64 | unfold int64, minInt64, maxInt64; lia].
    + now apply String.eqb_neq.
  - left. now rewrite !orb_true_r.
Qed.

(** What a [Delete] leaves of the store, for a request on the file
    (a, u, se, f): the records it had, without some records of that
    file. *)
Lemma stored_Delete_other s a u se f ver key val :
  int64 ver ->
  (AppName key, UserID key, SessionID key, FileName key) <> (a, u, se, f) ->
  stored (inMemoryService.Delete s (DeleteRequest.mk a u se f ver)).2 key val
  <-> stored s key val.
Proof.
  intros Hver Hne. unfold inMemoryService.Delete, inMemoryService.delete,
    OMap.Delete. cbv zeta.
  cbn [DeleteRequest.AppName DeleteRequest.UserID DeleteRequest.SessionID
       DeleteRequest.FileName DeleteRequest.Version].
  destruct (_ || _); [reflexivity|].
  destruct (negb (ver =? 0)); cbn [snd].
  - rewrite stored_delete_iff by exact Hver. split; [tauto|].
    intros H. split; [exact H|]. intros ->. now apply Hne.
  - rewrite stored_DeleteRange_file. split; [tauto|].
    intros H. split; [exact H|]. intros [E _]. apply Hne.
    rewrite E. reflexivity.
Qed.

Lemma List_ext s s' a u se :
  (forall f v val,
     stored s (mkKey a u se f v) val <-> stored s' (mkKey a u se f v) val) ->
  (inMemoryService.List s (ListRequest.mk a u se)).1 =
  (inMemoryService.List s' (ListRequest.mk a u se)).1.
Proof.
  intros H. unfold inMemoryService.List. cbv zeta.
  cbn [ListRequest.AppName ListRequest.UserID ListRequest.SessionID].
  destruct (_ || _); [reflexivity|]. cbn [fst]. f_equal. f_equal. f_equal.
  apply set_eq. intros f'. rewrite !elem_of_List_files.
  split; intros (v & val & Hst & Hc); exists v, val; (split; [|exact Hc]);
    now apply H.
Qed.

End frame.

(** X5.  A [Save] or a [Delete] on one file, whatever the request,
    changes no answer of [Load] and [Versions] on another file, and
    neither the error nor the names that [List] reports on another
    session. *)
Theorem writes_leave_other_files {Part : Type}
  (s s' : gmap string (option Part)) (a u se f : string) :
  (exists p ver,
      s' = (inMemoryService.Save s (SaveRequest.mk a u se f p ver)).2) \/
  (exists ver,
      int64 ver /\
      s' = (inMemoryService.Delete s (DeleteRequest.mk a u se f ver)).2) ->
  (forall a' u' se' f',
     (a', u', se', f') <> (a, u, se, f) ->
     (forall v, int64 v ->
        (inMemoryService.Load s' (LoadRequest.mk a' u' se' f' v)).1 =
        (inMemoryService.Load s (LoadRequest.mk a' u' se' f' v)).1) /\
     (inMemoryService.Versions s' (VersionsRequest.mk a' u' se' f')).1 =
     (inMemoryService.Versions s (VersionsRequest.mk a' u' se' f')).1) /\
  (forall a' u' se',
     (a', u', se') <> (a, u, se) ->
     (forall e,
        (inMemoryService.List s' (ListRequest.mk a' u' se')).1 = Err e <->
        (inMemoryService.List s (ListRequest.mk a' u' se')).1 = Err e) /\
     (forall f',
        f' ∈ fileNames
               (inMemoryService.List s' (ListRequest.mk a' u' se')).1 <->
        f' ∈ fileNames
               (inMemoryService.List s (ListRequest.mk a' u' se')).1)).
Proof.
  intros Hw.
  assert (forall key val,
            (AppName key, UserID key, SessionID key, FileName key)
              <> (a, u, se, f) ->
            (stored s' key val <-> stored s key val)) as Hother.
  { intros key val Hne.
    destruct Hw as [(p & ver & ->)|(ver & Hver & ->)].
    - destruct (Save_store s (SaveRequest.mk a u se f p ver))
        as [->|(nv & p' & Hnv & _ & ->)]; [reflexivity|].
      cbn [SaveRequest.AppName SaveRequest.UserID SaveRequest.SessionID
           SaveRequest.FileName].
      rewrite stored_insert by exact Hnv. split.
      + intros [[-> _]|[_ H]]; [now exfalso; apply Hne | exact H].
      + intros H. right. split; [|exact H]. intros ->. now apply Hne.
    - now apply stored_Delete_other. }
  split.
  - intros a' u' se' f' Hne.
    destruct (file_reads_ext s' s a' u' se' f') as (_ & HL & HV);
      [|split; [exact HL | exact HV]].
    intros v val _. apply Hother. exact Hne.
  - intros a' u' se' Hne.
    rewrite (List_ext s' s a' u' se'); [split; reflexivity|].
    intros f' v val.
    apply Hother. simpl. intros [= -> -> -> _]. now apply Hne.
Qed.

Lemma writes_leave_other_files_witness :
  (inMemoryService.Versions
     (inMemoryService.Delete testStore
        (DeleteRequest.mk "testapp" "testuser" "testsession" "file1" 0)).2
     (VersionsRequest.mk "testapp" "testuser" "testsession" "file2")).1 =
  (inMemoryService.Versions testStore
     (VersionsRequest.mk "testapp" "testuser" "testsession" "file2")).1.
Proof.
  refine (proj2
    (proj1 (writes_leave_other_files testStore _
              "testapp" "testuser" "testsession" "file1" _)
           "testapp" "testuser" "testsession" "file2" _)).
  - right. exists 0. split; [|reflexivity].
    unfold int64, minInt64, maxInt64. lia.
  - discriminate.
Defined.

(** ** [Delete] followed by other calls *)

Lemma StronglySorted_filter {A : Type} (R : A -> A -> Prop) (P : A -> Prop)
  `{!forall x, Decision (P x)} (l : list A) :
  StronglySorted R l -> StronglySorted R (filter P l).
Proof.
  induction 1 as [|x l Hl IH Hx]; [constructor|].
  rewrite filter_cons. destruct (decide (P x)); [|exact IH].
  constructor; [exact IH|].
  rewrite Forall_forall in *. intros y Hy.
  apply list_elem_of_filter in Hy as [_ Hy]. now apply Hx.
Qed.

(** X6.  Repeating a [Delete] request changes nothing more: the
    second call answers as the first did and leaves the store the
    first call left. *)
Theorem Delete_idempotent {Part : Type} (s : gmap string (option Part))
  (req : DeleteRequest.t) :
  inMemoryService.Delete (inMemoryService.Delete s req).2 req =
  inMemoryService.Delete s req.
Proof.
  unfold inMemoryService.Delete, inMemoryService.delete, OMap.Delete.
  cbv zeta. destruct (_ || _); [reflexivity|].
  destruct (negb _); cbn [snd]; f_equal.
  - apply delete_delete_eq.
  - apply map_eq. intros k. rewrite !lookup_DeleteRange.
    now destruct (decide _).
Qed.

(** X7.  Deleting one version of a file, with the version set: the
    answer of [Versions] is the former one without that version, in
    the same order; [Load] at any other positive version answers as
    before, and [Load] at the deleted version, when positive, fails
    with not-found. *)
Theorem Delete_version_then_reads {Part : Type}
  (s : gmap string (option Part)) (a u se f : string) (ver : Z) :
  a <> EmptyString -> u <> EmptyString -> se <> EmptyString ->
  f <> EmptyString -> int64 ver -> ver <> 0 ->
  let s' := (inMemoryService.Delete s (DeleteRequest.mk a u se f ver)).2 in
  versionList (inMemoryService.Versions s' (VersionsRequest.mk a u se f)).1
  = filter (fun v => v <> ver)
      (versionList
         (inMemoryService.Versions s (VersionsRequest.mk a u se f)).1) /\
  (forall v, int64 v -> 0 < v -> v <> ver ->
     (inMemoryService.Load s' (LoadRequest.mk a u se f v)).1 =
     (inMemoryService.Load s (LoadRequest.mk a u se f v)).1) /\
  (0 < ver ->
   (inMemoryService.Load s' (LoadRequest.mk a u se f ver)).1
   = Err ErrNotExist).
Proof.
  intros Ha Hu Hs Hf Hver Hne. cbv zeta.
  rewrite Delete_valid by assumption.
  replace (ver =? 0) with false by (symmetry; now apply Z.eqb_neq).
  cbn [negb snd].
  assert (forall v val,
            stored (base.delete (Encode (mkKey a u se f ver)) s)
                   (mkKey a u se f v) val
            <-> stored s (mkKey a u se f v) val /\ v <> ver) as Hst.
  { intros v val. rewrite stored_delete_iff by exact Hver.
    split; intros [H1 H2]; (split; [exact H1|]); congruence. }
  split; [|split].
  - rewrite !versionList_Versions by assumption.
    apply (StronglySorted_strict_ext (fun x y => y < x)).
    + intros x y H1 H2. lia.
    + apply fileScan_versions_sorted.
    + apply StronglySorted_filter, fileScan_versions_sorted.
    + intros v. rewrite list_elem_of_filter, !elem_of_fileScan_versions.
      split.
      * intros (H0 & val & H). apply Hst in H as [H Hv]. eauto.
      * intros (Hv & H0 & val & H). split; [exact H0|]. exists val.
        apply Hst. auto.
  - intros v Hv H0 Hv'. rewrite !Load_valid by assumption.
    replace (0 <? v) with true by (symmetry; now apply Z.ltb_lt).
    rewrite lookup_delete_ne; [now destruct (s !! _)|].
    intros E. apply Hv'. apply Encode_inj in E; [congruence| |]; assumption.
  - intros H0. rewrite Load_valid by assumption.
    replace (0 <? ver) with true by (symmetry; now apply Z.ltb_lt).
    now rewrite lookup_delete_eq.
Qed.

Lemma Delete_version_then_reads_witness :
  versionList
    (inMemoryService.Versions
       (inMemoryService.Delete testStore
          (DeleteRequest.mk "testapp" "testuser" "testsession" "file1" 2)).2
       (VersionsRequest.mk "testapp" "testuser" "testsession" "file1")).1
  = filter (fun v => v <> 2)
      (versionList
         (inMemoryService.Versions testStore
            (VersionsRequest.mk "testapp" "testuser" "testsession"
                                "file1")).1).
Proof.
  refine (proj1 (Delete_version_then_reads testStore
                   "testapp" "testuser" "testsession" "file1" 2
                   _ _ _ _ _ _));
    [discriminate | discriminate | discriminate | discriminate | | lia].
  unfold int64, minInt64, maxInt64. lia.
Defined.

(** X8.  Deleting a file with the version unset: [List] on its
    session keeps every other name it reported and reports no new
    one; the deleted name itself stays listed exactly when the file has
    a record at a negative version, which the range of the delete does
    not reach, and so never on a store that satisfies the data-model
    invariant. *)
Theorem Delete_all_then_List {Part : Type} (s : gmap string (option Part))
  (a u se f : string) :
  a <> EmptyString -> u <> EmptyString -> se <> EmptyString ->
  f <> EmptyString ->
  let s' := (inMemoryService.Delete s (DeleteRequest.mk a u se f 0)).2 in
  let l := fileNames (inMemoryService.List s (ListRequest.mk a u se)).1 in
  let l' := fileNames (inMemoryService.List s' (ListRequest.mk a u se)).1 in
  (forall f', f' <> f -> (f' ∈ l' <-> f' ∈ l)) /\
  (f ∈ l' <-> exists v val, v < 0 /\ stored s (mkKey a u se f v) val) /\
  (store_inv s -> f ∉ l').
Proof.
  intros Ha Hu Hs Hf. cbv zeta. rewrite Delete_valid by assumption.
  cbn [Z.eqb negb snd]. rewrite !List_valid by assumption.
  cbn [fst fileNames ListResponse.FileNames].
  assert (f ∈ elements
            (foldl (fun (files : gset string)
                        (kv : artifactKey * option Part) =>
                      if negb (String.eqb (SessionID kv.1) se)
                      then files
                      else {[ FileName kv.1 ]} ∪ files)
                   ∅
                   (inMemoryService.scan
                      (OMap.DeleteRange s
                         (Encode (mkKey a u se f maxInt64))
                         (Encode (mkKey a u se f 0)))
                      (Encode (mkKey a u se EmptyString 0))
                      (Encode (mkKey a u (se ++ String NUL EmptyString)
                                     EmptyString 0))))
          <-> exists v val, v < 0 /\ stored s (mkKey a u se f v) val) as Hself.
  { rewrite elem_of_elements, elem_of_List_files. split.
    - intros (v & val & Hst & _).
      apply stored_DeleteRange_file in Hst as [Hst Hn].
      exists v, val. split; [|exact Hst].
      destruct (Z_lt_le_dec v 0) as [H|H]; [exact H|].
      exfalso. apply Hn. split; [reflexivity | exact H].
    - intros (v & val & Hv & Hst). exists v, val. split; [|now left].
      apply stored_DeleteRange_file. split; [exact Hst|].
      intros [_ H]. simpl in H. lia. }
  split; [|split].
  - intros f' Hne. rewrite !elem_of_elements, !elem_of_List_files.
    split; intros (v & val & Hst & Hc); exists v, val; (split; [|exact Hc]).
    + now apply stored_DeleteRange_file in Hst as [Hst _].
    + apply stored_DeleteRange_file. split; [exact Hst|].
      intros [[= E] _]. now apply Hne.
  - exact Hself.
  - intros Hinv Hin. apply Hself in Hin as (v & val & Hv & Hst).
    apply Hinv in Hst. destruct Hst as (_ & _ & _ & _ & H). simpl in H. lia.
Qed.

Lemma Delete_all_then_List_witness :
  "file1" ∉ fileNames
    (inMemoryService.List
       (inMemoryService.Delete testStore
          (DeleteRequest.mk "testapp" "testuser" "testsession" "file1" 0)).2
       (ListRequest.mk "testapp" "testuser" "testsession")).1.
Proof.
  refine (proj2 (proj2 (Delete_all_then_List testStore
                          "testapp" "testuser" "testsession" "file1"
                          _ _ _ _)) store_inv_testStore);
    discriminate.
Defined.

(** ** [Versions], [Load] and [Save] read the same scan *)

(** X9.  [Versions] and [Load] agree on a file: one fails with
    not-found exactly when [Load] without a version does; the first
    version [Versions] reports is the one [Load] without a version
    returns; and [Load] at a positive version succeeds exactly for the
    versions that [Versions] reports. *)
Theorem Versions_Load_agree {Part : Type} (s : gmap string (option Part))
  (a u se f : string) :
  a <> EmptyString -> u <> EmptyString -> se <> EmptyString ->
  f <> EmptyString ->
  let vs := (inMemoryService.Versions s (VersionsRequest.mk a u se f)).1 in
  (vs = Err ErrNotExist <->
   (inMemoryService.Load s (LoadRequest.mk a u se f 0)).1 = Err ErrNotExist) /\
  (forall v l,
     vs = Ok (VersionsResponse.mk (v :: l)) ->
     (inMemoryService.Load s (LoadRequest.mk a u se f 0)).1 =
     (inMemoryService.Load s (LoadRequest.mk a u se f v)).1 /\
     exists val,
       (inMemoryService.Load s (LoadRequest.mk a u se f 0)).1 =
       Ok (LoadResponse.mk val)) /\
  (forall v, int64 v -> 0 < v ->
     (v ∈ versionList vs <->
      exists val,
        (inMemoryService.Load s (LoadRequest.mk a u se f v)).1 =
        Ok (LoadResponse.mk val))).
Proof.
  intros Ha Hu Hs Hf. cbv zeta. split; [|split].
  - rewrite Versions_valid, Load_valid by assumption. cbv zeta.
    cbn [Z.ltb Z.compare]. rewrite find_unfold.
    destruct (fileScan s a u se f) as [|[key val] rest]; simpl; [tauto|].
    split; discriminate.
  - intros v l. rewrite Versions_valid by assumption. cbv zeta.
    destruct (fileScan s a u se f) as [|[key val] rest] eqn:E;
      [discriminate|].
    simpl. intros [= <- <-].
    destruct (fileScan_head s a u se f key val rest E)
      as (Hk & H0 & [Hv Hst] & _).
    rewrite Hk in Hst. cbn [Version] in Hst.
    rewrite !Load_valid by assumption. cbn [Z.ltb Z.compare].
    rewrite find_unfold, E. split; [|now exists val].
    now destruct (0 <? Version key) eqn:E0; [rewrite Hst|].
  - intros v Hv H0. rewrite versionList_Versions by assumption.
    rewrite elem_of_fileScan_versions, Load_valid by assumption.
    replace (0 <? v) with true by (symmetry; now apply Z.ltb_lt).
    split.
    + intros (_ & val & [_ Hst]). rewrite Hst. now exists val.
    + intros [val H]. split; [lia|].
      destruct (s !! Encode (mkKey a u se f v)) as [val'|] eqn:E;
        [|discriminate].
      exists val'. split; [exact Hv | exact E].
Qed.

Lemma Versions_Load_agree_witness :
  3 ∈ versionList
        (inMemoryService.Versions testStore
           (VersionsRequest.mk "testapp" "testuser" "testsession" "file1")).1
  <-> exists val,
      (inMemoryService.Load testStore
         (LoadRequest.mk "testapp" "testuser" "testsession" "file1" 3)).1 =
      Ok (LoadResponse.mk val).
Proof.
  refine (proj2 (proj2 (Versions_Load_agree testStore
                          "testapp" "testuser" "testsession" "file1"
                          _ _ _ _)) 3 _ _);
    [discriminate | discriminate | discriminate | discriminate | | lia].
  unfold int64, minInt64, maxInt64. lia.
Defined.

(** X10.  The version a valid [Save] returns is one more (in int64
    arithmetic) than the first version [Versions] reports, and 1 when
    [Versions] fails; so after a [Delete] with the version unset the
    next [Save] starts again at 1: version numbers of deleted records
    are given out again. *)
Theorem Save_version_from_Versions {Part : Type}
  (s : gmap string (option Part)) (a u se f : string) (p : Part) (ver : Z) :
  a <> EmptyString -> u <> EmptyString -> se <> EmptyString ->
  f <> EmptyString ->
  (inMemoryService.Save s (SaveRequest.mk a u se f (Some p) ver)).1 =
  Ok (SaveResponse.mk
        (wrap64
           (hd 0 (versionList
                    (inMemoryService.Versions s
                       (VersionsRequest.mk a u se f)).1) + 1))) /\
  (inMemoryService.Save
     (inMemoryService.Delete s (DeleteRequest.mk a u se f 0)).2
     (SaveRequest.mk a u se f (Some p) ver)).1 = Ok (SaveResponse.mk 1).
Proof.
  intros Ha Hu Hs Hf. split.
  - rewrite Save_valid, versionList_Versions by assumption. cbv zeta.
    rewrite find_unfold.
    now destruct (fileScan s a u se f) as [|[key val] rest].
  - rewrite Delete_valid by assumption. cbn [Z.eqb negb snd].
    rewrite Save_valid by assumption. cbv zeta. rewrite find_unfold.
    replace (fileScan _ a u se f) with (@nil (artifactKey * option Part));
      [reflexivity|].
    symmetry. apply fileScan_nil. intros v val H0 Hst.
    apply stored_DeleteRange_file in Hst as [_ Hn]. apply Hn.
    split; [reflexivity | exact H0].
Qed.

Lemma Save_version_from_Versions_witness :
  (inMemoryService.Save
     (inMemoryService.Delete testStore
        (DeleteRequest.mk "testapp" "testuser" "testsession" "file1" 0)).2
     (SaveRequest.mk "testapp" "testuser" "testsession" "file1"
                     (Some "again") 0)).1 = Ok (SaveResponse.mk 1).
Proof.
  refine (proj2 (Save_version_from_Versions testStore
                   "testapp" "testuser" "testsession" "file1" "again" 0
                   _ _ _ _));
    discriminate.
Defined.

(** ** The fresh store, and the stores that calls can reach *)

Section reach.
Context {Part : Type}.
Implicit Types (s : gmap string (option Part)) (val : option Part).

Lemma scan_empty lo hi :
  inMemoryService.scan (∅ : gmap string (option Part)) lo hi = [].
Proof.
  unfold inMemoryService.scan, OMap.Scan.
  now rewrite map_filter_empty, map_to_list_empty.
Qed.

Lemma Load_store s req : (inMemoryService.Load s req).2 = s.
Proof.
  unfold inMemoryService.Load. cbv zeta.
  destruct (_ || _); [reflexivity|].
  destruct (0 <? _).
  - now destruct (inMemoryService.get _ _ _ _ _ _).
  - now destruct (inMemoryService.find _ _ _ _ _) as [[? ?] []].
Qed.

Lemma List_store s req : (inMemoryService.List s req).2 = s.
Proof.
  unfold inMemoryService.List. cbv zeta. now destruct (_ || _).
Qed.

Lemma Versions_store s req : (inMemoryService.Versions s req).2 = s.
Proof.
  unfold inMemoryService.Versions. cbv zeta.
  destruct (_ || _); [reflexivity|]. now destruct (length _ =? 0)%nat.
Qed.

Lemma lookup_Delete s req k val :
  (inMemoryService.Delete s req).2 !! k = Some val -> s !! k = Some val.
Proof.
  unfold inMemoryService.Delete, inMemoryService.delete, OMap.Delete.
  cbv zeta. destruct (_ || _); [auto|].
  destruct (negb _); cbn [snd].
  - intros H. now apply lookup_delete_Some in H.
  - rewrite lookup_DeleteRange. now destruct (decide _).
Qed.

Lemma valid_key_int64 key : valid_key key -> int64 (Version key).
Proof.
  intros (_ & _ & _ & _ & H). unfold int64, minInt64, maxInt64 in *. lia.
Qed.

Lemma bounded_store_mono n m s :
  n <= m -> bounded_store n s -> bounded_store m s.
Proof.
  intros Hnm H k val Hk.
  destruct (H k val Hk) as (key & p & ? & ? & ? & ?).
  exists key, p. repeat split; try assumption; try apply H2. lia.
Qed.

Lemma bounded_store_stored n s key val :
  bounded_store n s -> stored s key val ->
  valid_key key /\ Version key <= n.
Proof.
  intros H [Hv Hk]. destruct (H _ _ Hk) as (key' & p & E & _ & Hval & Hn).
  apply Encode_inj in E; [|exact Hv | now apply valid_key_int64].
  subst key'. auto.
Qed.

Lemma bounded_store_Save n s req :
  0 <= n < maxInt64 -> bounded_store n s ->
  bounded_store (n + 1) (inMemoryService.Save s req).2.
Proof.
  intros Hn H. destruct req as [a u se f [p|] ver];
    unfold inMemoryService.Save; cbv zeta;
    cbn [SaveRequest.AppName SaveRequest.UserID SaveRequest.SessionID
         SaveRequest.FileName SaveRequest.Part_ inMemoryService.isNil].
  2:{ rewrite !orb_true_r. cbn [snd].
      apply (bounded_store_mono n); [lia | exact H]. }
  destruct (String.eqb a EmptyString) eqn:Ea;
    [apply (bounded_store_mono n); [lia | exact H]|].
  destruct (String.eqb u EmptyString) eqn:Eu;
    [apply (bounded_store_mono n); [lia | exact H]|].
  destruct (String.eqb se EmptyString) eqn:Es;
    [apply (bounded_store_mono n); [lia | exact H]|].
  destruct (String.eqb f EmptyString) eqn:Ef;
    [apply (bounded_store_mono n); [lia | exact H]|].
  apply String.eqb_neq in Ea, Eu, Es, Ef. cbn [orb snd].
  unfold inMemoryService.set, OMap.Set_. cbv zeta.
  set (nv := match inMemoryService.find s a u se f with
             | (internalVer, _, true) => wrap64 (internalVer + 1)
             | (_, _, false) => 1
             end).
  assert (1 <= nv <= n + 1) as Hnv.
  { unfold nv.
    destruct (find_cases s a u se f) as
      [(v & val & -> & Hv & Hst & _)|[-> _]]; [|lia].
    destruct (bounded_store_stored n s _ _ H Hst) as [Hval Hle].
    destruct Hval as (_ & _ & _ & _ & H1). cbn [Version] in *.
    rewrite wrap64_small; [lia|].
    unfold int64, minInt64, maxInt64 in *. lia. }
  clearbody nv. intros k val Hk.
  apply lookup_insert_Some in Hk as [[<- <-]|[_ Hk]].
  - exists (mkKey a u se f nv), p.
    split; [reflexivity|]. split; [reflexivity|]. split; [|simpl; lia].
    unfold valid_key. simpl. repeat split; try assumption; lia.
  - apply (bounded_store_mono n (n + 1) s ltac:(lia) H). exact Hk.
Qed.

Lemma bounded_store_step n s (c : call Part) :
  0 <= n < maxInt64 -> bounded_store n s -> bounded_store (n + 1) (step s c).
Proof.
  intros Hn H. destruct c as [req|req|req|req|req]; cbn [step].
  - now apply bounded_store_Save.
  - rewrite Load_store. apply (bounded_store_mono n); [lia | exact H].
  - intros k val Hk. apply lookup_Delete in Hk.
    apply (bounded_store_mono n (n + 1) s ltac:(lia) H). exact Hk.
  - rewrite List_store. apply (bounded_store_mono n); [lia | exact H].
  - rewrite Versions_store. apply (bounded_store_mono n); [lia | exact H].
Qed.

Lemma bounded_store_foldl (calls : list (call Part)) :
  forall n s,
    0 <= n -> n + Z.of_nat (length calls) <= maxInt64 ->
    bounded_store n s ->
    bounded_store (n + Z.of_nat (length calls)) (foldl step s calls).
Proof.
  induction calls as [|c calls IH]; intros n s H0 Hn H.
  - simpl. now rewrite Z.add_0_r.
  - cbn [foldl length] in *. rewrite Nat2Z.inj_succ in *.
    replace (n + Z.succ (Z.of_nat (length calls)))
      with ((n + 1) + Z.of_nat (length calls)) by lia.
    apply IH; [lia | lia |]. apply bounded_store_step; [lia | exact H].
Qed.

End reach.

(** X11.  On a fresh [Mem()], with non-empty names: [Load] at any
    version and [Versions] fail with not-found, [List] succeeds with
    no name, [Delete] at any version succeeds and leaves the store
    empty, and the first [Save] returns version 1. *)
Theorem Mem_is_empty {Part : Type} (a u se f : string) (v : Z) (p : Part) :
  a <> EmptyString -> u <> EmptyString -> se <> EmptyString ->
  f <> EmptyString ->
  let s : gmap string (option Part) := inMemoryService.Mem in
  inMemoryService.Load s (LoadRequest.mk a u se f v) = (Err ErrNotExist, s) /\
  inMemoryService.Versions s (VersionsRequest.mk a u se f)
  = (Err ErrNotExist, s) /\
  inMemoryService.List s (ListRequest.mk a u se)
  = (Ok (ListResponse.mk []), s) /\
  inMemoryService.Delete s (DeleteRequest.mk a u se f v) = (None, s) /\
  (inMemoryService.Save s (SaveRequest.mk a u se f (Some p) v)).1
  = Ok (SaveResponse.mk 1).
Proof.
  intros Ha Hu Hs Hf. cbv zeta. unfold inMemoryService.Mem.
  assert (inMemoryService.find (∅ : gmap string (option Part)) a u se f
          = (0, None, false)) as Efind
    by (unfold inMemoryService.find; cbv zeta; now rewrite scan_empty).
  split; [|split; [|split; [|split]]].
  - rewrite Load_valid by assumption. rewrite lookup_empty, Efind.
    now destruct (0 <? v).
  - rewrite Versions_valid by assumption. cbv zeta. unfold fileScan.
    now rewrite scan_empty.
  - rewrite List_valid by assumption. rewrite scan_empty. simpl.
    now rewrite elements_empty.
  - rewrite Delete_valid by assumption.
    destruct (negb _); f_equal.
  - rewrite Save_valid by assumption. cbv zeta. now rewrite Efind.
Qed.

Lemma Mem_is_empty_witness :
  inMemoryService.Load (inMemoryService.Mem : gmap string (option string))
    (LoadRequest.mk "app" "user" "session" "file" 0)
  = (Err ErrNotExist, inMemoryService.Mem).
Proof.
  refine (proj1 (Mem_is_empty "app" "user" "session" "file" 0 "x"
                   _ _ _ _));
    discriminate.
Defined.

(** X12.  Whatever calls a client makes on a fresh [Mem()], as long
    as there are at most [maxInt64] of them: every binding of the map
    is a non-nil payload under the encoding of a key with four
    non-empty names and a version between 1 and the number of calls
    made; in particular the store satisfies the data-model invariant
    and no key that fails to decode is ever stored. *)
Theorem run_keeps_invariant {Part : Type} (calls : list (call Part)) :
  Z.of_nat (length calls) <= maxInt64 ->
  bounded_store (Z.of_nat (length calls)) (run calls) /\
  store_inv (run calls).
Proof.
  intros Hlen.
  assert (bounded_store (Z.of_nat (length calls)) (run calls)) as H.
  { unfold run.
    apply (bounded_store_foldl calls 0 inMemoryService.Mem);
      [lia | lia |].
    intros k val Hk. unfold inMemoryService.Mem in Hk.
    rewrite lookup_empty in Hk. discriminate. }
  split; [exact H|].
  intros key val Hst. now apply (bounded_store_stored _ _ _ _ H Hst).
Qed.

Lemma run_keeps_invariant_witness :
  store_inv
    (run [CallSave (SaveRequest.mk "testapp" "testuser" "testsession"
                                   "file1" (Some "file v1") 7);
          CallDelete (DeleteRequest.mk "testapp" "testuser" "testsession"
                                       "file1" (-1));
          CallSave (SaveRequest.mk "testapp" "testuser" "testsession"
                                   "file1" (Some "file v2") 0)]).
Proof.
  refine (proj2 (run_keeps_invariant _ _)).
  unfold maxInt64. simpl. lia.
Defined.

(** ** Reads *)

